(** * Tagalog dictionary scraper: a shallow embedding and its properties

    The development follows [src/tagalog_dictionary_scraper.py].  Python
    strings are modelled as lists of characters with code points below 256
    ([list ascii]), Python integers as [Z], and an insertion-ordered [dict]
    as an association list whose keys are pairwise distinct.  Exceptions are
    values of [exn]; code that can raise returns a [result]. *)

From Stdlib Require Import String Ascii DecimalString DecimalFacts DecimalPos.
From Stdlib Require Import List ZArith Bool Lia FinFun.
Import ListNotations.

Local Open Scope Z_scope.

(** ** Exceptions and fallible computations *)

(** The exception classes the program can meet.  [OtherException] stands
    for any further subclass of [Exception], named by its class (the
    transport's errors, for instance); [KeyboardInterrupt] is the one
    listed here that is not a subclass of [Exception]. *)
Inductive exn : Type :=
| AttributeError
| KeyError
| ValueError
| IndexError
| OtherException (class_name : string)
| KeyboardInterrupt.

Definition is_Exception (e : exn) : bool :=
  match e with
  | KeyboardInterrupt => false
  | _ => true
  end.

Inductive result (A : Type) : Type :=
| Ok (a : A)
| Raise (e : exn).

Arguments Ok {A} a.
Arguments Raise {A} e.

Definition bind {A B : Type} (r : result A) (k : A -> result B) : result B :=
  match r with
  | Ok a => k a
  | Raise e => Raise e
  end.

Declare Scope result_scope.
Delimit Scope result_scope with result.

Notation "x <- c ;; k" := (bind c (fun x => k))
  (at level 61, c at next level, right associativity) : result_scope.
Notation "' p <- c ;; k" := (bind c (fun x => match x with p => k end))
  (at level 61, p pattern, c at next level, right associativity) : result_scope.

(** ** Strings *)

Definition str : Type := list ascii.

(** A string literal. *)
Definition lit (s : string) : str := list_ascii_of_string s.

Definition str_eqb (a b : str) : bool :=
  if list_eq_dec ascii_dec a b then true else false.

(** [s.startswith(p)] *)
Fixpoint startswith (s p : str) {struct p} : bool :=
  match p, s with
  | [], _ => true
  | _ :: _, [] => false
  | x :: p', c :: s' => Ascii.eqb x c && startswith s' p'
  end.

(** The lowest index at which [sub] occurs in [s], if it occurs. *)
Fixpoint find_index (s sub : str) : option nat :=
  if startswith s sub then Some O
  else match s with
       | [] => None
       | _ :: s' => option_map S (find_index s' sub)
       end.

(** [s.find(sub)]: the lowest index of an occurrence, or -1. *)
Definition find (s sub : str) : Z :=
  match find_index s sub with
  | Some i => Z.of_nat i
  | None => -1
  end.

(** [s.split(sep)] scans from the left: the text before the first
    occurrence of [sep] is a fragment, and the scan resumes after that
    occurrence.  Every step removes at least one character, so a fuel of
    [length s] is never exhausted (lemma [split_list_unfold]). *)
Fixpoint split_fuel (fuel : nat) (s sep : str) : list str :=
  match fuel with
  | O => [s]
  | S fuel' =>
      match find_index s sep with
      | None => [s]
      | Some i =>
          firstn i s :: split_fuel fuel' (skipn (i + length sep) s) sep
      end
  end.

Definition split_list (s sep : str) : list str :=
  split_fuel (length s) s sep.

(** An empty separator is refused with [ValueError]. *)
Definition split (s sep : str) : result (list str) :=
  match sep with
  | [] => Raise ValueError
  | _ :: _ => Ok (split_list s sep)
  end.

(** [str.isspace] on one character, for code points below 256. *)
Definition isspace (c : ascii) : bool :=
  let n := nat_of_ascii c in
  ((9 <=? n) && (n <=? 13) || (28 <=? n) && (n <=? 32)
   || (n =? 133) || (n =? 160))%nat.

Fixpoint lstrip (s : str) : str :=
  match s with
  | [] => []
  | c :: s' => if isspace c then lstrip s' else s
  end.

Definition rstrip (s : str) : str := rev (lstrip (rev s)).

(** [s.strip()] *)
Definition strip (s : str) : str := rstrip (lstrip s).

(** [l[-1]] *)
Definition last_item {A : Type} (l : list A) : result A :=
  match rev l with
  | [] => Raise IndexError
  | x :: _ => Ok x
  end.

(** [l[-2]] *)
Definition second_last_item {A : Type} (l : list A) : result A :=
  match rev l with
  | _ :: x :: _ => Ok x
  | _ => Raise IndexError
  end.

(** [str(n)] for an integer. *)
Definition str_of_int (n : Z) : str :=
  lit (NilZero.string_of_int (Z.to_int n)).

Definition is_digit (c : ascii) : bool :=
  let n := nat_of_ascii c in ((48 <=? n) && (n <=? 57))%nat.

Definition digit_value (c : ascii) : Z := Z.of_nat (nat_of_ascii c) - 48.

(** The digits of an integer literal: single underscores are allowed
    between digits only. *)
Fixpoint int_digits (s : str) (acc : Z) (after_digit : bool) : option Z :=
  match s with
  | [] => if after_digit then Some acc else None
  | c :: s' =>
      if is_digit c then int_digits s' (10 * acc + digit_value c) true
      else if Ascii.eqb c "_"%char
           then (if after_digit then int_digits s' acc false else None)
           else None
  end.

(** The whitespace that [int] accepts around a numeral, for code points
    below 256: tab to carriage return, the space, and the two code points
    133 and 160 that it reads as spaces.  The separators 28 to 31, which
    [str.strip] removes, are not among them. *)
Definition int_space (c : ascii) : bool :=
  let n := nat_of_ascii c in
  ((9 <=? n) && (n <=? 13) || (n =? 32) || (n =? 133) || (n =? 160))%nat.

Fixpoint int_lskip (s : str) : str :=
  match s with
  | [] => []
  | c :: s' => if int_space c then int_lskip s' else s
  end.

Definition int_strip (s : str) : str := rev (int_lskip (rev (int_lskip s))).

(** [int(s)] in base ten: surrounding whitespace, an optional sign,
    digits. *)
Definition py_int (s : str) : result Z :=
  let body := int_strip s in
  let parsed :=
    match body with
    | c :: ds =>
        if Ascii.eqb c "-"%char then option_map Z.opp (int_digits ds 0 false)
        else if Ascii.eqb c "+"%char then int_digits ds 0 false
        else int_digits body 0 false
    | [] => None
    end in
  match parsed with
  | Some n => Ok n
  | None => Raise ValueError
  end.

(** ** Ranges and slices *)

(** The number of elements of [range(start, stop, step)], [step <> 0]. *)
Definition range_length (start stop step : Z) : nat :=
  if 0 <? step then Z.to_nat ((stop - start + step - 1) / step)
  else Z.to_nat ((start - stop - step - 1) / (- step)).

(** [range(start, stop, step)], which refuses a zero step. *)
Definition range (start stop step : Z) : result (list Z) :=
  if step =? 0 then Raise ValueError
  else Ok (map (fun k => start + Z.of_nat k * step)
               (seq 0 (range_length start stop step))).

(** [range(start, stop)] *)
Definition range2 (start stop : Z) : list Z :=
  map (fun k => start + Z.of_nat k * 1) (seq 0 (range_length start stop 1)).

(** A slice bound brought into [0 .. len]: negative bounds count from
    the end. *)
Definition slice_bound (len i : Z) : Z :=
  if i <? 0 then Z.max 0 (i + len) else Z.min i len.

(** [l[a:b]] *)
Definition slice {A : Type} (l : list A) (a b : Z) : list A :=
  let len := Z.of_nat (length l) in
  let a' := slice_bound len a in
  let b' := slice_bound len b in
  firstn (Z.to_nat (b' - a')) (skipn (Z.to_nat a') l).

(** [max(l)] on integers; an empty argument is refused. *)
Definition py_max (l : list Z) : result Z :=
  match l with
  | [] => Raise ValueError
  | x :: xs => Ok (fold_left Z.max xs x)
  end.

(** ** Insertion-ordered dictionaries *)

Section Dict.

Context {K V : Type}.
Variable eqb : K -> K -> bool.

Definition dict : Type := list (K * V).

(** [d[k] = v]: an existing key keeps its place and takes the new value, a
    new key goes to the end. *)
Fixpoint setitem (d : dict) (k : K) (v : V) : dict :=
  match d with
  | [] => [(k, v)]
  | (k', v') :: d' =>
      if eqb k' k then (k', v) :: d' else (k', v') :: setitem d' k v
  end.

Fixpoint getitem (d : dict) (k : K) : option V :=
  match d with
  | [] => None
  | (k', v') :: d' => if eqb k' k then Some v' else getitem d' k
  end.

Fixpoint delitem (d : dict) (k : K) : dict :=
  match d with
  | [] => []
  | (k', v') :: d' => if eqb k' k then d' else (k', v') :: delitem d' k
  end.

(** [d.pop(k)]: the value and the dictionary without the key. *)
Definition pop (d : dict) (k : K) : result (V * dict) :=
  match getitem d k with
  | Some v => Ok (v, delitem d k)
  | None => Raise KeyError
  end.

Definition keys (d : dict) : list K := map fst d.

Definition values (d : dict) : list V := map snd d.

(** [d.update(other)] *)
Definition update (d other : dict) : dict :=
  fold_left (fun acc kv => setitem acc (fst kv) (snd kv)) other d.

End Dict.

(** ** The documents of the site *)

(** An element of a parsed page: its text and its attributes. *)
Record Element : Type := mkElement {
  text : str;
  attrs : list (str * str)
}.

(** One [div.word-group]: what [find('a', first=True)] and
    [find('div.definition p', first=True)] give on it ([None] when
    nothing matches). *)
Record WordGroup : Type := mkWordGroup {
  first_a : option Element;
  definition_p : option Element
}.

(** A parsed page, seen through the two queries the scraper makes on it:
    [find('a[title^=Last]', first=True)] and [find('div.word-group')]. *)
Record HTML : Type := mkHTML {
  last_anchor : option Element;
  word_groups : list WordGroup
}.

(** A response of the transport, with the address it was asked for. *)
Record Response : Type := mkResponse {
  requested : str;
  html : HTML
}.

(** [e.text] where [e] may be [None]. *)
Definition text_of (e : option Element) : result str :=
  match e with
  | Some x => Ok (text x)
  | None => Raise AttributeError
  end.

(** ** The scraper's constants *)

Definition url : str := lit "https://tagalog.pinoydictionary.com".

Definition letters : list str :=
  map (fun c => [c]) (lit "abcdefghijklmnopqrstuvwxyz").

Definition parts_of_speech : list str :=
  map lit
    [ "n."; "syn."; "bot."; "zoo."; "by ext."; "interrog."; "gram.";
      "idiom."; "prep."; "pref."; "pers."; "conj."; "med."; "mat.";
      "electr."; "mil."; "intrj."; "adv."; "pron."; "comp."; "adj."; "v.";
      "inf."; "pl."; "coll."; "fig."; "poss."; "anat."; "rel.";
      "pseudo-verb"; "existential";
      "imp."; "expr."; "excl."; "adj"; "[n]"; "vinf."; "n"; "v.,inf.";
      "n.,zoo."; "adj./adv." ]%string.

(** ** Tags and definition of one entry *)

(** The scan of [_get_parts_of_speech]: every tag of the vocabulary that
    occurs in the text is stored under the index of its first occurrence. *)
Definition scan_tags (vocabulary : list str) (t : str) : dict (K := Z) (V := str) :=
  fold_left
    (fun indices_pos_mapping part_of_speech =>
       let index := find t part_of_speech in
       if index =? -1 then indices_pos_mapping
       else setitem Z.eqb indices_pos_mapping index part_of_speech)
    vocabulary [].

Definition _get_parts_of_speech (element : option Element) : result (list str) :=
  (t <- text_of element ;;
   let indices_pos_mapping := scan_tags parts_of_speech t in
   max_index <- py_max (keys indices_pos_mapping) ;;
   '(last_part_of_speech, indices_pos_mapping) <-
      pop Z.eqb indices_pos_mapping max_index ;;
   Ok (values indices_pos_mapping ++ [last_part_of_speech]))%result.

Definition _get_definition (definition : option Element) (part_of_speech : str)
  : result str :=
  (t <- text_of definition ;;
   fragments <- split t part_of_speech ;;
   fragment <- last_item fragments ;;
   Ok (strip fragment))%result.

(** An entry of the resulting dictionary. *)
Record WordEntry : Type := mkWordEntry {
  entry_parts_of_speech : list str;
  entry_definition : str
}.

(** Lines 291-292 of [_get_words_info]: the tags of a definition block,
    then its definition text, split at the last tag. *)
Definition disambiguate (definition : option Element) : result (list str * str) :=
  (tags <- _get_parts_of_speech definition ;;
   tag <- last_item tags ;;
   definition_text <- _get_definition definition tag ;;
   Ok (tags, definition_text))%result.

(** ** Pagination and listing addresses *)

(** [d[k]] on the attributes of an element. *)
Definition attr (e : Element) (k : str) : result str :=
  match getitem str_eqb (attrs e) k with
  | Some v => Ok v
  | None => Raise KeyError
  end.

(** [e.attrs] where [e] may be [None]. *)
Definition attrs_of (e : option Element) : result Element :=
  match e with
  | Some x => Ok x
  | None => Raise AttributeError
  end.

(** Lines 116-122 of [scrape]: the exclusive last page of a letter, read
    from the anchor whose title begins with "Last".  Only
    [AttributeError] is handled. *)
Definition scrape_last_page (response : HTML) : result Z :=
  match (anchor <- attrs_of (last_anchor response) ;;
         last_page <- attr anchor (lit "href") ;;
         last_page <- split last_page (lit "/") ;;
         segment <- second_last_item last_page ;;
         number <- py_int segment ;;
         Ok (number + 1))%result
  with
  | Raise AttributeError => Ok 2
  | r => r
  end.

(** The address of one listing page:
    ['{url}/list/{letter}/{current_page}/'] where page 1 is formatted as
    the empty string. *)
Definition page_url (letter : str) (current_page : Z) : str :=
  let current_page := if current_page =? 1 then [] else str_of_int current_page in
  url ++ lit "/list/" ++ letter ++ lit "/" ++ current_page ++ lit "/".

Definition _get_all_urls_by_letter (letter : str) (last_page : Z) : list str :=
  map (page_url letter) (range2 1 last_page).

(** [chunk_list] inside [_get_pages_content_async]: the slices
    [l[i:i + n]] for [i] in [range(0, len(l), n)]. *)
Definition chunk_list {A : Type} (l : list A) (n : Z) : result (list (list A)) :=
  (starts <- range 0 (Z.of_nat (length l)) n ;;
   Ok (map (fun i => slice l i (i + n)) starts))%result.

(** ** Effects: the transport and the log *)

Inductive log_record : Type :=
| InfoCurrentLetter (letter : str)
| InfoCurrentURL (u : str)
| ErrorFailedURL (u : str)
| ErrorTraceback (e : exn)
| InfoWord (word : str) (tags : list str) (definition : str).

Section Scraper.

(** The state of the outside world, and the two calls of the transport:
    [HTMLSession().get(url)], and [AsyncHTMLSession().run] on the
    coroutines that get the addresses of one chunk. *)
Variable World : Type.
Variable session_get : str -> World -> result Response * World.
Variable session_run : list str -> World -> result (list Response) * World.

Record State : Type := mkState {
  world : World;
  log : list log_record
}.

Definition M (A : Type) : Type := State -> result A * State.

Definition ret {A : Type} (a : A) : M A := fun s => (Ok a, s).

Definition mbind {A B : Type} (m : M A) (k : A -> M B) : M B :=
  fun s =>
    match m s with
    | (Ok a, s') => k a s'
    | (Raise e, s') => (Raise e, s')
    end.

Definition lift {A : Type} (r : result A) : M A := fun s => (r, s).

Definition logging (r : log_record) : M unit :=
  fun s => (Ok tt, mkState (world s) (log s ++ [r])).

Definition on_world {A : Type} (f : World -> result A * World) : M A :=
  fun s => let (r, w) := f (world s) in (r, mkState w (log s)).

(** [try: body except Exception: handler] *)
Definition try_except_Exception {A : Type} (body : M A) (handler : exn -> M A)
  : M A :=
  fun s =>
    match body s with
    | (Raise e, s') => if is_Exception e then handler e s' else (Raise e, s')
    | r => r
    end.

Declare Scope M_scope.
Delimit Scope M_scope with M.

Notation "x <- c ;; k" := (mbind c (fun x => k))
  (at level 61, c at next level, right associativity) : M_scope.
Notation "c ;;; k" := (mbind c (fun _ => k))
  (at level 61, right associativity) : M_scope.

Definition _get_url_content (u : str) : M HTML :=
  (response <- on_world (session_get u) ;;
   ret (html response))%M.

(** The [for] loop of [_get_pages_content]. *)
Fixpoint _get_pages_content_loop (urls : list str) (contents : list HTML)
  : M (list HTML) :=
  match urls with
  | [] => ret contents
  | u :: urls' =>
      (contents <-
         try_except_Exception
           (logging (InfoCurrentURL u) ;;;
            content <- _get_url_content u ;;
            ret (contents ++ [content]))
           (fun e =>
              logging (ErrorFailedURL u) ;;;
              logging (ErrorTraceback e) ;;;
              ret contents) ;;
       _get_pages_content_loop urls' contents)%M
  end.

(** [[self._get_url_content(url) for url in urls]] *)
Fixpoint get_each_url_content (urls : list str) : M (list HTML) :=
  match urls with
  | [] => ret []
  | u :: urls' =>
      (content <- _get_url_content u ;;
       contents <- get_each_url_content urls' ;;
       ret (content :: contents))%M
  end.

(** The loop fills [contents]; the value returned is the comprehension
    of line 176, which gets every address again. *)
Definition _get_pages_content (urls : list str) : M (list HTML) :=
  (_get_pages_content_loop urls [] ;;;
   get_each_url_content urls)%M.

(** The [for] loop of [_get_pages_content_async] over the chunks. *)
Fixpoint run_chunks (chunk_urls : list (list str)) (all_results : list HTML)
  : M (list HTML) :=
  match chunk_urls with
  | [] => ret all_results
  | chunk :: chunk_urls' =>
      (results <- on_world (session_run chunk) ;;
       run_chunks chunk_urls' (all_results ++ map html results))%M
  end.

Definition _get_pages_content_async (urls : list str) (max_urls : Z)
  : M (list HTML) :=
  (chunk_urls <- lift (chunk_list urls max_urls) ;;
   run_chunks chunk_urls [])%M.

Definition words_dict : Type := dict (K := str) (V := WordEntry).

(** The body of the inner loop of [_get_words_info]. *)
Definition _get_words_info_group (group : WordGroup) (words : words_dict)
  : M words_dict :=
  (word <- lift (text_of (first_a group)) ;;
   r <- lift (disambiguate (definition_p group)) ;;
   let words := setitem str_eqb words word (mkWordEntry (fst r) (snd r)) in
   logging (InfoWord word (fst r) (snd r)) ;;;
   ret words)%M.

Fixpoint _get_words_info_groups (word_group : list WordGroup) (words : words_dict)
  : M words_dict :=
  match word_group with
  | [] => ret words
  | group :: word_group' =>
      (words <- _get_words_info_group group words ;;
       _get_words_info_groups word_group' words)%M
  end.

Fixpoint _get_words_info_pages (htmls : list HTML) (words : words_dict)
  : M words_dict :=
  match htmls with
  | [] => ret words
  | page :: htmls' =>
      (words <- _get_words_info_groups (word_groups page) words ;;
       _get_words_info_pages htmls' words)%M
  end.

Definition _get_words_info (htmls : list HTML) : M words_dict :=
  _get_words_info_pages htmls [].

(** The body of the loop of [scrape] for one letter. *)
Definition scrape_letter (async_scrape : bool) (max_urls : Z) (letter : str)
  (words : words_dict) : M words_dict :=
  (logging (InfoCurrentLetter letter) ;;;
   let current_url := url ++ lit "/list/" ++ letter in
   response <- _get_url_content current_url ;;
   last_page <- lift (scrape_last_page response) ;;
   let urls := _get_all_urls_by_letter letter last_page in
   htmls <- (if async_scrape then _get_pages_content_async urls max_urls
             else _get_pages_content urls) ;;
   found <- _get_words_info htmls ;;
   ret (update str_eqb words found))%M.

Fixpoint scrape_letters (ls : list str) (async_scrape : bool) (max_urls : Z)
  (words : words_dict) : M words_dict :=
  match ls with
  | [] => ret words
  | letter :: ls' =>
      (words <- scrape_letter async_scrape max_urls letter words ;;
       scrape_letters ls' async_scrape max_urls words)%M
  end.

Definition scrape (async_scrape : bool) (max_urls : Z) : M words_dict :=
  scrape_letters letters async_scrape max_urls [].

End Scraper.

Arguments mkState {World} world log.
Arguments world {World} s.
Arguments log {World} s.

(** A definition block with the given text and no attributes. *)
Definition block (s : string) : option Element := Some (mkElement (lit s) []).

(** ** What the scan finds, stated apart from the dictionary *)

(** The tags of the vocabulary that occur in a text, in the order of the
    vocabulary, each with the index of its first occurrence. *)
Definition found_tags (vocabulary : list str) (t : str) : list (Z * str) :=
  flat_map
    (fun tag => let i := find t tag in if i =? -1 then [] else [(i, tag)])
    vocabulary.

(** The distinct elements of a list, in the order in which they are
    first seen. *)
Fixpoint first_seen (l : list Z) : list Z :=
  match l with
  | [] => []
  | x :: l' => x :: filter (fun y => negb (y =? x)) (first_seen l')
  end.

(** The last of the found tags whose index is [i]. *)
Fixpoint latest_tag (found : list (Z * str)) (i : Z) : option str :=
  match found with
  | [] => None
  | (j, tag) :: found' =>
      match latest_tag found' i with
      | Some later => Some later
      | None => if j =? i then Some tag else None
      end
  end.

(** A word group with a headword and a definition block. *)
Definition entry_group (word definition : string) : WordGroup :=
  mkWordGroup (Some (mkElement (lit word) [])) (block definition).

(** An entry of the words dictionary comes from a group that satisfies
    [G]: its headword is the text of the group's first link, and its tags
    and definition are the disambiguation of the group's block. *)
Definition extracted (G : WordGroup -> Prop) (word : str) (entry : WordEntry)
  : Prop :=
  exists group a d,
    G group /\ first_a group = Some a /\ definition_p group = Some d /\
    word = text a /\
    disambiguate (Some d) =
    Ok (entry_parts_of_speech entry, entry_definition entry).

(** A first listing page whose "Last" anchor links to [href]. *)
Definition page_with_last (href : string) : HTML :=
  mkHTML (Some (mkElement (lit "Last") [(lit "href", lit href)])) [].

(** A page with two entries: the block of the first holds no known tag. *)
Definition page_bahay_aso : HTML :=
  mkHTML None [entry_group "bahay" "bahay: house"; entry_group "aso" "aso n. dog"].

(** The chunks run one after another: each run of the transport starts
    in the world that the run of the chunk before it left. *)
Inductive chunks_run {World : Type}
  (run : list str -> World -> result (list Response) * World)
  : list (list str) -> World -> list (list Response) -> World -> Prop :=
| chunks_run_nil (w : World) : chunks_run run [] w [] w
| chunks_run_cons (chunk : list str) (chunks : list (list str))
    (w w' w'' : World) (rs : list Response) (results : list (list Response)) :
    run chunk w = (Ok rs, w') ->
    chunks_run run chunks w' results w'' ->
    chunks_run run (chunk :: chunks) w (rs :: results) w''.

(** A page without entries. *)
Definition empty_page : HTML := mkHTML None [].

(** A transport without state whose [run] answers every address of a
    chunk, in order. *)
Definition run_each (chunk : list str) (w : unit)
  : result (list Response) * unit :=
  (Ok (map (fun u => mkResponse u empty_page) chunk), w).

(** A document that names the address it was fetched from: its only
    word group has the address as headword. *)
Definition page_named (u : str) : HTML :=
  mkHTML None [mkWordGroup (Some (mkElement u [])) None].

(** A transport without state whose [run] answers every address of a
    chunk, the last address first. *)
Definition run_reversed (chunk : list str) (w : unit)
  : result (list Response) * unit :=
  (Ok (map (fun u => mkResponse u (page_named u)) (rev chunk)), w).

(** A transport without state whose [get] fails on one address. *)
Definition get_except (bad : str) (u : str) (w : unit) : result Response * unit :=
  if str_eqb u bad then (Raise (OtherException "ConnectionError"), w)
  else (Ok (mkResponse u empty_page), w).

(** A transport without state: the answer depends on the address only. *)
Definition stateless (fetch : str -> result Response) (u : str) (w : unit)
  : result Response * unit :=
  (fetch u, w).

(** The documents of the addresses that [fetch] answers, in order. *)
Definition fetched_documents (fetch : str -> result Response) (urls : list str)
  : list HTML :=
  flat_map (fun u => match fetch u with
                     | Ok response => [html response]
                     | Raise _ => []
                     end) urls.

(** ** Further definitions used to state properties *)

(** [sep.join(fragments)] *)
Fixpoint join (sep : str) (fragments : list str) : str :=
  match fragments with
  | [] => []
  | [fragment] => fragment
  | fragment :: fragments' => fragment ++ sep ++ join sep fragments'
  end.

(** The value of a decimal numeral read from the left with an
    accumulator, as [int_digits] reads its characters. *)
Fixpoint uint_value (d : Decimal.uint) (acc : Z) : Z :=
  match d with
  | Decimal.Nil => acc
  | Decimal.D0 l => uint_value l (10 * acc + 0)
  | Decimal.D1 l => uint_value l (10 * acc + 1)
  | Decimal.D2 l => uint_value l (10 * acc + 2)
  | Decimal.D3 l => uint_value l (10 * acc + 3)
  | Decimal.D4 l => uint_value l (10 * acc + 4)
  | Decimal.D5 l => uint_value l (10 * acc + 5)
  | Decimal.D6 l => uint_value l (10 * acc + 6)
  | Decimal.D7 l => uint_value l (10 * acc + 7)
  | Decimal.D8 l => uint_value l (10 * acc + 8)
  | Decimal.D9 l => uint_value l (10 * acc + 9)
  end.

(** A first listing page whose "Last" anchor links to the address [href]. *)
Definition page_linking_last (href : str) : HTML :=
  mkHTML (Some (mkElement (lit "Last") [(lit "href", href)])) [].

(** A transport that keeps the list of the addresses it was asked for;
    its answer depends on the address only. *)
Definition recording (answer : str -> result Response) (u : str) (w : list str)
  : result Response * list str :=
  (answer u, w ++ [u]).

(** What the loop of [_get_pages_content] logs for the addresses. *)
Definition loop_log (answer : str -> result Response) (urls : list str)
  : list log_record :=
  flat_map (fun u => match answer u with
                     | Ok _ => [InfoCurrentURL u]
                     | Raise e => [InfoCurrentURL u; ErrorFailedURL u; ErrorTraceback e]
                     end) urls.

(** The headword and the entry of one word group: the body of the inner
    loop of [_get_words_info] without its effects. *)
Definition group_entry (group : WordGroup) : result (str * WordEntry) :=
  (word <- text_of (first_a group) ;;
   r <- disambiguate (definition_p group) ;;
   Ok (word, mkWordEntry (fst r) (snd r)))%result.

(** The word groups of the pages, page after page. *)
Definition all_groups (htmls : list HTML) : list WordGroup :=
  flat_map word_groups htmls.

(** The log record of an extracted entry. *)
Definition entry_record (p : str * WordEntry) : log_record :=
  InfoWord (fst p) (entry_parts_of_speech (snd p)) (entry_definition (snd p)).

(** The entries of the groups up to the first group that fails, with the
    error of that group if there is one. *)
Fixpoint entries_until (groups : list WordGroup)
  : list (str * WordEntry) * option exn :=
  match groups with
  | [] => ([], None)
  | group :: groups' =>
      match group_entry group with
      | Ok p => let (ps, failure) := entries_until groups' in (p :: ps, failure)
      | Raise e => ([], Some e)
      end
  end.

(** * Properties *)

(** ** Strings *)

Lemma startswith_app (s p : str) :
  startswith s p = true <-> exists r, s = p ++ r.
Proof.
  revert s; induction p as [|x p IH]; intros s; simpl.
  - split; [intros _; now exists s | reflexivity].
  - destruct s as [|c s].
    + split; [discriminate | intros [r Hr]; discriminate].
    + rewrite andb_true_iff, Ascii.eqb_eq, IH. split.
      * intros [-> [r ->]]. now exists r.
      * intros [r Hr]. injection Hr as -> ->. split; [reflexivity | now exists r].
Qed.

Lemma str_eqb_eq (a b : str) : str_eqb a b = true <-> a = b.
Proof.
  unfold str_eqb. destruct (list_eq_dec ascii_dec a b); split; congruence.
Qed.

Lemma find_index_Some (s sub : str) (i : nat) :
  find_index s sub = Some i ->
  exists pre post, s = pre ++ sub ++ post /\ length pre = i.
Proof.
  revert i; induction s as [|c s IH]; intros i; simpl.
  - destruct (startswith [] sub) eqn:E; [|discriminate].
    intros [= <-]. apply startswith_app in E as [r Hr].
    exists [], r. now split.
  - destruct (startswith (c :: s) sub) eqn:E.
    + intros [= <-]. apply startswith_app in E as [r Hr].
      exists [], r. now split.
    + destruct (find_index s sub) as [j|] eqn:F; simpl; [|discriminate].
      intros [= <-]. destruct (IH j eq_refl) as (pre & post & -> & <-).
      exists (c :: pre), post. now split.
Qed.

Lemma find_index_None (s sub : str) :
  find_index s sub = None -> forall a b, s <> a ++ sub ++ b.
Proof.
  induction s as [|c s IH]; simpl.
  - destruct (startswith [] sub) eqn:E; [discriminate|].
    intros _ a b H. destruct a; simpl in H.
    + assert (startswith [] sub = true) by (apply startswith_app; now exists b).
      congruence.
    + discriminate.
  - destruct (startswith (c :: s) sub) eqn:E; [discriminate|].
    destruct (find_index s sub) eqn:F; simpl; [discriminate|].
    intros _ a b H. destruct a as [|x a]; simpl in H.
    + assert (startswith (c :: s) sub = true) by (apply startswith_app; now exists b).
      congruence.
    + injection H as _ H. now apply (IH eq_refl a b).
Qed.

Lemma find_index_slices (s sub : str) (i : nat) :
  find_index s sub = Some i ->
  s = firstn i s ++ sub ++ skipn (i + length sub) s.
Proof.
  intros H. destruct (find_index_Some _ _ _ H) as (pre & post & -> & <-).
  rewrite firstn_app, firstn_all, Nat.sub_diag, app_nil_r. simpl.
  rewrite app_assoc, <- length_app, skipn_app, skipn_all, Nat.sub_diag.
  simpl. now rewrite <- app_assoc.
Qed.

Lemma find_nonneg (s sub : str) : find s sub = -1 \/ 0 <= find s sub.
Proof. unfold find. destruct (find_index s sub); lia. Qed.

Lemma find_minus_one (s sub : str) :
  find s sub = -1 <-> find_index s sub = None.
Proof.
  unfold find. destruct (find_index s sub); split; intros; try discriminate; try lia.
  reflexivity.
Qed.

Lemma last_item_cons {A : Type} (x : A) (l : list A) (y : A) :
  last_item l = Ok y -> last_item (x :: l) = Ok y.
Proof.
  unfold last_item. simpl. destruct (rev l); [discriminate|].
  intros [= ->]. reflexivity.
Qed.

Lemma last_item_snoc {A : Type} (l : list A) (x : A) :
  last_item (l ++ [x]) = Ok x.
Proof. unfold last_item. now rewrite rev_app_distr. Qed.

(** The fuel of [split_list] is enough: any two fuels that cover the
    length of the text give the same fragments. *)
Lemma split_fuel_irrelevant (sep : str) :
  sep <> [] ->
  forall fuel1 fuel2 s,
    (length s <= fuel1)%nat -> (length s <= fuel2)%nat ->
    split_fuel fuel1 s sep = split_fuel fuel2 s sep.
Proof.
  intros Hsep. induction fuel1 as [|fuel1 IH]; intros fuel2 s H1 H2.
  - destruct s; [|simpl in H1; lia].
    destruct fuel2; simpl; [reflexivity|].
    destruct sep; [congruence | reflexivity].
  - destruct fuel2 as [|fuel2].
    + destruct s; [|simpl in H2; lia].
      simpl. destruct sep; [congruence | reflexivity].
    + cbn [split_fuel]. destruct (find_index s sep) as [i|] eqn:F; [|reflexivity].
      f_equal.
      assert (length (skipn (i + length sep) s) < length s)%nat.
      { pose proof (find_index_slices _ _ _ F) as Hs.
        rewrite Hs at 2. rewrite !length_app.
        destruct sep; [congruence|]. cbn [length]. lia. }
      apply IH; lia.
Qed.

Lemma split_fuel_enough (sep : str) (fuel : nat) :
  sep <> [] ->
  forall s, (length s <= fuel)%nat ->
  split_fuel fuel s sep = split_fuel (length s) s sep.
Proof.
  intros Hsep s Hlen. apply split_fuel_irrelevant; [assumption | lia | lia].
Qed.

Lemma split_list_unfold (s sep : str) :
  sep <> [] ->
  split_list s sep =
  match find_index s sep with
  | None => [s]
  | Some i => firstn i s :: split_list (skipn (i + length sep) s) sep
  end.
Proof.
  intros Hsep. unfold split_list. destruct s as [|c s].
  - simpl. destruct sep; [congruence | reflexivity].
  - cbn [split_fuel length]. destruct (find_index (c :: s) sep) as [i|]; [|reflexivity].
    f_equal. apply split_fuel_enough; [assumption|].
    rewrite length_skipn. destruct sep; [congruence|]. cbn [length]. lia.
Qed.

(** The last fragment of a split holds no occurrence of the separator,
    and is what follows an occurrence of it when there is one. *)
Lemma split_last_fragment (sep : str) :
  sep <> [] ->
  forall s, exists fragment,
    last_item (split_list s sep) = Ok fragment /\
    find_index fragment sep = None /\
    match find_index s sep with
    | None => fragment = s
    | Some _ => exists pre, s = pre ++ sep ++ fragment
    end.
Proof.
  intros Hsep s.
  remember (length s) as n eqn:Hn.
  revert s Hn. induction n as [n IH] using lt_wf_ind. intros s Hn.
  rewrite split_list_unfold by assumption.
  destruct (find_index s sep) as [i|] eqn:F.
  - pose proof (find_index_slices _ _ _ F) as Hs.
    set (rest := skipn (i + length sep) s) in *.
    assert (length rest < n)%nat as Hlt.
    { subst n. rewrite Hs at 1. rewrite !length_app.
      destruct sep; [congruence|]. cbn [length]. lia. }
    destruct (IH _ Hlt rest eq_refl) as (fragment & Hlast & Hnone & Hshape).
    exists fragment. split; [now apply last_item_cons|]. split; [assumption|].
    destruct (find_index rest sep).
    + destruct Hshape as [pre Hpre]. exists (firstn i s ++ sep ++ pre).
      rewrite Hs at 1. rewrite Hpre. now rewrite <- !app_assoc.
    + subst fragment. now exists (firstn i s).
  - exists s. repeat split; assumption || reflexivity.
Qed.

Lemma lstrip_suffix (s : str) : exists a, s = a ++ lstrip s.
Proof.
  induction s as [|c s [a IH]]; simpl.
  - now exists [].
  - destruct (isspace c).
    + exists (c :: a). simpl. now f_equal.
    + now exists [].
Qed.

Lemma strip_infix (s : str) : exists a b, s = a ++ strip s ++ b.
Proof.
  unfold strip, rstrip.
  destruct (lstrip_suffix s) as [a Ha].
  destruct (lstrip_suffix (rev (lstrip s))) as [b Hb].
  exists a, (rev b). rewrite Ha at 1. f_equal.
  rewrite <- rev_app_distr, <- Hb. now rewrite rev_involutive.
Qed.

(** A string with no occurrence of [sep] does not start with [sep] after
    trimming. *)
Lemma strip_not_startswith (s sep : str) :
  find_index s sep = None -> startswith (strip s) sep = false.
Proof.
  intros Hnone. destruct (startswith (strip s) sep) eqn:E; [|reflexivity].
  apply startswith_app in E as [r Hr].
  destruct (strip_infix s) as (a & b & Hs).
  exfalso. apply (find_index_None _ _ Hnone a (r ++ b)).
  rewrite Hs at 1. rewrite Hr. now rewrite <- app_assoc.
Qed.

(** ** Dictionaries *)

Section DictFacts.

Context {K V : Type}.
Variable eqb : K -> K -> bool.
Hypothesis eqb_eq : forall a b, eqb a b = true <-> a = b.

Lemma eqb_refl_true (k : K) : eqb k k = true.
Proof. now apply eqb_eq. Qed.

Lemma eqb_neq (a b : K) : eqb a b = false <-> a <> b.
Proof.
  destruct (eqb a b) eqn:E.
  - apply eqb_eq in E. split; [discriminate | congruence].
  - split; [|reflexivity]. intros _ H. apply eqb_eq in H. congruence.
Qed.

Lemma setitem_keys_in (d : dict (K := K) (V := V)) k v :
  In k (keys d) -> keys (setitem eqb d k v) = keys d.
Proof.
  induction d as [|[k0 v0] d IH]; simpl; [tauto|].
  intros H. destruct (eqb k0 k) eqn:E; simpl; [reflexivity|].
  f_equal. apply IH. destruct H as [H|H]; [|assumption].
  apply eqb_neq in E. congruence.
Qed.

Lemma setitem_keys_notin (d : dict (K := K) (V := V)) k v :
  ~ In k (keys d) -> keys (setitem eqb d k v) = keys d ++ [k].
Proof.
  induction d as [|[k0 v0] d IH]; simpl; [reflexivity|].
  intros H. destruct (eqb k0 k) eqn:E; simpl.
  - apply eqb_eq in E. tauto.
  - f_equal. apply IH. tauto.
Qed.

Lemma setitem_new (d : dict (K := K) (V := V)) k v :
  ~ In k (keys d) -> setitem eqb d k v = d ++ [(k, v)].
Proof.
  induction d as [|[k0 v0] d IH]; simpl; [reflexivity|].
  intros H. destruct (eqb k0 k) eqn:E.
  - apply eqb_eq in E. tauto.
  - f_equal. apply IH. tauto.
Qed.

Lemma setitem_In (d : dict (K := K) (V := V)) k v k' v' :
  In (k', v') (setitem eqb d k v) -> (k', v') = (k, v) \/ In (k', v') d.
Proof.
  induction d as [|[k0 v0] d IH]; simpl.
  - intros [H|[]]. left. congruence.
  - destruct (eqb k0 k) eqn:E; simpl.
    + apply eqb_eq in E. subst k0. intros [H|H]; [left; congruence | tauto].
    + intros [H|H]; [tauto|]. destruct (IH H); tauto.
Qed.

Lemma setitem_In_nodup (d : dict (K := K) (V := V)) k v k' v' :
  NoDup (keys d) ->
  In (k', v') (setitem eqb d k v) ->
  (k' = k /\ v' = v) \/ (k' <> k /\ In (k', v') d).
Proof.
  induction d as [|[k0 v0] d IH]; simpl; intros Hnd.
  - intros [H|[]]. left. split; congruence.
  - inversion Hnd as [|? ? Hnotin Hnd']; subst.
    destruct (eqb k0 k) eqn:E; simpl.
    + apply eqb_eq in E. subst k0. intros [H|H].
      * left. split; congruence.
      * right. split; [|tauto]. intros ->. apply Hnotin.
        change k with (fst (k, v')). now apply in_map.
    + apply eqb_neq in E. intros [H|H].
      * right. injection H as <- <-. tauto.
      * destruct (IH Hnd' H) as [?|[? ?]]; tauto.
Qed.

Lemma key_eq_dec (a b : K) : {a = b} + {a <> b}.
Proof.
  destruct (eqb a b) eqn:E.
  - left. now apply eqb_eq.
  - right. now apply eqb_neq.
Qed.

Lemma setitem_nodup (d : dict (K := K) (V := V)) k v :
  NoDup (keys d) -> NoDup (keys (setitem eqb d k v)).
Proof.
  intros Hnd. destruct (in_dec key_eq_dec k (keys d)) as [Hin|Hnotin].
  - now rewrite setitem_keys_in.
  - rewrite setitem_keys_notin by assumption.
    apply NoDup_app; [assumption | repeat constructor; simpl; tauto |].
    intros x Hx [<-|[]]. contradiction.
Qed.

Lemma getitem_In (d : dict (K := K) (V := V)) k v :
  getitem eqb d k = Some v -> In (k, v) d.
Proof.
  induction d as [|[k0 v0] d IH]; simpl; [discriminate|].
  destruct (eqb k0 k) eqn:E.
  - apply eqb_eq in E. intros [= ->]. left. congruence.
  - intros H. right. now apply IH.
Qed.

Lemma getitem_key (d : dict (K := K) (V := V)) k :
  In k (keys d) -> exists v, getitem eqb d k = Some v.
Proof.
  induction d as [|[k0 v0] d IH]; simpl; [tauto|].
  intros H. destruct (eqb k0 k) eqn:E; [now exists v0|].
  apply IH. destruct H as [H|H]; [|assumption].
  apply eqb_neq in E. congruence.
Qed.

Lemma delitem_filter (d : dict (K := K) (V := V)) k :
  NoDup (keys d) ->
  delitem eqb d k = filter (fun kv => negb (eqb (fst kv) k)) d.
Proof.
  induction d as [|[k0 v0] d IH]; simpl; [reflexivity|].
  intros Hnd. inversion Hnd as [|? ? Hnotin Hnd']; subst.
  destruct (eqb k0 k) eqn:E; simpl.
  - apply eqb_eq in E. subst k0. symmetry. apply forallb_filter_id.
    apply forallb_forall. intros [k1 v1] Hin. simpl.
    apply negb_true_iff, eqb_neq. intros ->. apply Hnotin.
    change k with (fst (k, v1)). now apply in_map.
  - f_equal. now apply IH.
Qed.

Lemma delitem_incl (d : dict (K := K) (V := V)) k kv :
  In kv (delitem eqb d k) -> In kv d.
Proof.
  induction d as [|[k0 v0] d IH]; simpl; [tauto|].
  destruct (eqb k0 k); simpl; [tauto|]. intros [H|H]; [tauto|]. right. now apply IH.
Qed.

End DictFacts.

(** ** The scan of the vocabulary *)

Lemma py_max_spec (l : list Z) :
  l <> [] ->
  exists m, py_max l = Ok m /\ In m l /\ Forall (fun x => x <= m) l.
Proof.
  destruct l as [|x xs]; [congruence|]. intros _. simpl.
  exists (fold_left Z.max xs x). split; [reflexivity|].
  revert x. induction xs as [|y ys IH]; intros x; simpl.
  - split; [tauto|]. repeat constructor. lia.
  - destruct (IH (Z.max x y)) as [Hin Hall]. split.
    + cbn [In]. destruct Hin as [Hin|Hin]; [|tauto].
      destruct (Z.max_spec x y) as [[_ E]|[_ E]]; rewrite E in Hin |- *; tauto.
    + inversion Hall as [|? ? Hm Hys]; subst.
      repeat constructor; try assumption; lia.
Qed.

Lemma first_seen_In (l : list Z) (x : Z) : In x (first_seen l) <-> In x l.
Proof.
  induction l as [|a l IH]; simpl; [tauto|].
  rewrite filter_In, IH, negb_true_iff, Z.eqb_neq.
  destruct (Z.eq_dec a x); intuition congruence.
Qed.

Lemma first_seen_snoc (l : list Z) (x : Z) :
  first_seen (l ++ [x]) =
  if in_dec Z.eq_dec x l then first_seen l else first_seen l ++ [x].
Proof.
  induction l as [|a l IH]; simpl; [reflexivity|].
  rewrite IH. destruct (in_dec Z.eq_dec x l) as [Hin|Hnotin].
  - destruct (Z.eq_dec a x); reflexivity.
  - rewrite filter_app. simpl. destruct (Z.eq_dec a x) as [->|Hne].
    + rewrite Z.eqb_refl. simpl. now rewrite app_nil_r.
    + replace (x =? a) with false by (symmetry; apply Z.eqb_neq; congruence).
      reflexivity.
Qed.

Lemma latest_tag_snoc (found : list (Z * str)) (k : Z) (v : str) (i : Z) :
  latest_tag (found ++ [(k, v)]) i =
  if k =? i then Some v else latest_tag found i.
Proof.
  induction found as [|[j tag] found IH]; simpl.
  - reflexivity.
  - rewrite IH. destruct (k =? i); [reflexivity|].
    reflexivity.
Qed.

Lemma latest_tag_In (found : list (Z * str)) (i : Z) (tag : str) :
  latest_tag found i = Some tag -> In (i, tag) found.
Proof.
  induction found as [|[j t] found IH]; simpl; [discriminate|].
  destruct (latest_tag found i) as [later|].
  - intros [= <-]. right. now apply IH.
  - destruct (j =? i) eqn:E; [|discriminate].
    apply Z.eqb_eq in E. intros [= <-]. left. congruence.
Qed.

Lemma scan_fold_found (vocabulary : list str) (t : str) (acc : dict) :
  fold_left
    (fun m tag =>
       let index := find t tag in
       if index =? -1 then m else setitem Z.eqb m index tag)
    vocabulary acc =
  fold_left (fun m p => setitem Z.eqb m (fst p) (snd p))
            (found_tags vocabulary t) acc.
Proof.
  unfold found_tags. revert acc.
  induction vocabulary as [|tag vocabulary IH]; intros acc; simpl; [reflexivity|].
  rewrite fold_left_app, IH. destruct (find t tag =? -1); reflexivity.
Qed.

(** The dictionary that the found tags build, one assignment each. *)
Lemma scan_tags_found (vocabulary : list str) (t : str) :
  scan_tags vocabulary t =
  fold_left (fun m p => setitem Z.eqb m (fst p) (snd p))
            (found_tags vocabulary t) [].
Proof. apply scan_fold_found. Qed.

Lemma found_tags_In (vocabulary : list str) (t : str) (i : Z) (tag : str) :
  In (i, tag) (found_tags vocabulary t) <->
  In tag vocabulary /\ find t tag = i /\ i <> -1.
Proof.
  unfold found_tags. rewrite in_flat_map. split.
  - intros (x & Hx & Hin). destruct (find t x =? -1) eqn:E; [destruct Hin|].
    apply Z.eqb_neq in E. destruct Hin as [[= <- <-]|[]]. tauto.
  - intros (Hin & <- & Hne). exists tag. split; [assumption|].
    apply Z.eqb_neq in Hne. rewrite Hne. now left.
Qed.

Lemma built_dict (found : list (Z * str)) :
  let d := fold_left (fun m p => setitem Z.eqb m (fst p) (snd p)) found [] in
  NoDup (keys d) /\
  keys d = first_seen (map fst found) /\
  forall k v, In (k, v) d -> latest_tag found k = Some v.
Proof.
  induction found as [|[k v] found IH] using rev_ind; cbv zeta.
  - simpl. repeat split; [constructor | tauto].
  - rewrite fold_left_app. cbv zeta in IH. cbn [fold_left fst snd].
    set (d := fold_left (fun (m : dict) (p : Z * str) => setitem Z.eqb m (fst p) (snd p))
                        found []) in *.
    destruct IH as (Hnd & Hkeys & Hvals). split; [|split].
    + apply setitem_nodup; [apply Z.eqb_eq | assumption].
    + rewrite map_app. simpl. rewrite first_seen_snoc.
      destruct (in_dec Z.eq_dec k (map fst found)) as [Hin|Hnotin].
      * rewrite setitem_keys_in; [assumption | apply Z.eqb_eq |].
        rewrite Hkeys. now apply first_seen_In.
      * rewrite setitem_keys_notin; [now rewrite Hkeys | apply Z.eqb_eq |].
        rewrite Hkeys. now rewrite first_seen_In.
    + intros k' v' Hin. rewrite latest_tag_snoc.
      apply (setitem_In_nodup Z.eqb Z.eqb_eq) in Hin; [|assumption].
      destruct Hin as [[-> ->]|[Hne Hin]].
      * now rewrite Z.eqb_refl.
      * replace (k =? k') with false by (symmetry; apply Z.eqb_neq; congruence).
        now apply Hvals.
Qed.

Lemma Forall2_fst_snd {A B : Type} (R : A -> B -> Prop) (l : list (A * B)) :
  (forall a b, In (a, b) l -> R a b) -> Forall2 R (map fst l) (map snd l).
Proof.
  induction l as [|[a b] l IH]; simpl; intros H; constructor.
  - apply H. now left.
  - apply IH. intros a' b' Hin. apply H. now right.
Qed.

Lemma map_fst_filter_key (d : list (Z * str)) (m : Z) :
  map fst (filter (fun kv => negb (fst kv =? m)) d) =
  filter (fun i => negb (i =? m)) (map fst d).
Proof.
  induction d as [|[k v] d IH]; simpl; [reflexivity|].
  destruct (k =? m); simpl; now rewrite IH.
Qed.

Lemma parts_of_speech_nonempty (tag : str) :
  In tag parts_of_speech -> tag <> [].
Proof.
  intros Hin Hnil. subst tag. revert Hin. unfold parts_of_speech. simpl.
  intuition discriminate.
Qed.

(** The general facts below do not look inside the vocabulary. *)
#[local] Opaque parts_of_speech.

Lemma scan_tags_empty (t : str) :
  found_tags parts_of_speech t = [] -> scan_tags parts_of_speech t = [].
Proof. intros H. now rewrite scan_tags_found, H. Qed.

Lemma scan_tags_nonempty (t : str) :
  found_tags parts_of_speech t <> [] -> keys (scan_tags parts_of_speech t) <> [].
Proof.
  intros H. rewrite scan_tags_found.
  destruct (built_dict (found_tags parts_of_speech t)) as (_ & -> & _).
  destruct (found_tags parts_of_speech t) as [|[i tag] found]; [congruence|].
  discriminate.
Qed.

Lemma no_tag_no_found (t : str) :
  (forall tag, In tag parts_of_speech -> find t tag = -1) ->
  found_tags parts_of_speech t = [].
Proof.
  intros H. destruct (found_tags parts_of_speech t) as [|[i tag] found] eqn:E; [reflexivity|].
  assert (In (i, tag) (found_tags parts_of_speech t)) as Hin by (rewrite E; now left).
  apply found_tags_In in Hin as (Hin & Hfind & Hne).
  rewrite (H _ Hin) in Hfind. congruence.
Qed.

Lemma some_tag_found (t tag : str) :
  In tag parts_of_speech -> find t tag <> -1 ->
  found_tags parts_of_speech t <> [].
Proof.
  intros Hin Hne Hnil.
  assert (In (find t tag, tag) (found_tags parts_of_speech t)) as H
    by (apply found_tags_In; tauto).
  rewrite Hnil in H. destruct H.
Qed.

(** What [_get_parts_of_speech] returns, in terms of the dictionary of
    the scan. *)
Lemma get_parts_of_speech_scan (e : Element) :
  let d := scan_tags parts_of_speech (text e) in
  keys d <> [] ->
  exists m nearest,
    In m (keys d) /\ Forall (fun k => k <= m) (keys d) /\ In (m, nearest) d /\
    _get_parts_of_speech (Some e) =
    Ok (map snd (filter (fun kv => negb (fst kv =? m)) d) ++ [nearest]).
Proof.
  intros d Hne.
  destruct (py_max_spec _ Hne) as (m & Hmax & Hin & Hall).
  destruct (getitem_key Z.eqb Z.eqb_eq d m Hin) as [nearest Hget].
  exists m, nearest.
  split; [exact Hin|]. split; [exact Hall|]. split.
  - exact (getitem_In Z.eqb Z.eqb_eq d m nearest Hget).
  - unfold _get_parts_of_speech. cbn [text_of bind]. fold d.
    rewrite Hmax. cbn [bind]. unfold pop. rewrite Hget. cbn [bind].
    unfold values. rewrite (delitem_filter Z.eqb Z.eqb_eq); [reflexivity|].
    subst d. rewrite scan_tags_found. apply built_dict.
Qed.

Lemma get_parts_of_speech_none (e : Element) :
  found_tags parts_of_speech (text e) = [] ->
  _get_parts_of_speech (Some e) = Raise ValueError.
Proof.
  intros H. unfold _get_parts_of_speech. cbn [text_of bind].
  now rewrite (scan_tags_empty _ H).
Qed.

Lemma scan_entry_found (t : str) (k : Z) (v : str) :
  In (k, v) (scan_tags parts_of_speech t) ->
  latest_tag (found_tags parts_of_speech t) k = Some v.
Proof.
  rewrite scan_tags_found. apply built_dict.
Qed.

Lemma scan_entry (t : str) (k : Z) (v : str) :
  In (k, v) (scan_tags parts_of_speech t) ->
  In v parts_of_speech /\ find t v = k /\ k <> -1.
Proof.
  intros H. apply scan_entry_found, latest_tag_In in H.
  now apply found_tags_In in H.
Qed.

Lemma nodup_values_of_keys {A B : Type} (f : B -> A) (l : list (A * B)) :
  NoDup (map fst l) ->
  (forall k v, In (k, v) l -> f v = k) ->
  NoDup (map snd l).
Proof.
  induction l as [|[k v] l IH]; simpl; intros Hnd Hf; constructor.
  - inversion Hnd as [|? ? Hnotin _]; subst. intros Hin.
    apply in_map_iff in Hin as ([k' v'] & Hv & Hin). simpl in Hv. subst v'.
    apply Hnotin. rewrite <- (Hf k v) by tauto. rewrite (Hf k' v) by tauto.
    change k' with (fst (k', v)). now apply in_map.
  - inversion Hnd; subst. apply IH; [assumption|]. intros k' v' Hin. apply Hf. tauto.
Qed.

(** What a successful disambiguation returns. *)
Lemma disambiguate_Ok (e : Element) (tags : list str) (definition : str) :
  disambiguate (Some e) = Ok (tags, definition) ->
  exists leading nearest fragments fragment,
    tags = leading ++ [nearest] /\
    In nearest parts_of_speech /\
    split (text e) nearest = Ok fragments /\
    last_item fragments = Ok fragment /\
    find fragment nearest = -1 /\
    definition = strip fragment.
Proof.
  unfold disambiguate. intros H.
  destruct (found_tags parts_of_speech (text e)) as [|p found] eqn:Efound.
  - rewrite (get_parts_of_speech_none _ Efound) in H. discriminate.
  - assert (keys (scan_tags parts_of_speech (text e)) <> []) as Hne
      by (apply scan_tags_nonempty; rewrite Efound; discriminate).
    destruct (get_parts_of_speech_scan e Hne) as (m & nearest & _ & _ & Hin & Hget).
    rewrite Hget in H. cbn [bind] in H. rewrite last_item_snoc in H. cbn [bind] in H.
    pose proof (scan_entry _ _ _ Hin) as (Hvoc & _ & _).
    pose proof (parts_of_speech_nonempty _ Hvoc) as Hnonempty.
    destruct (split_last_fragment nearest Hnonempty (text e))
      as (fragment & Hlast & Hnone & _).
    unfold _get_definition, split in H. cbn [text_of bind] in H.
    destruct nearest as [|c nearest]; [congruence|].
    cbn [bind] in H. rewrite Hlast in H. cbn [bind] in H.
    injection H as <- <-.
    eexists _, (c :: nearest), _, fragment.
    split; [reflexivity|]. split; [exact Hvoc|]. split; [reflexivity|].
    split; [exact Hlast|]. split; [|reflexivity].
    now apply find_minus_one.
Qed.

Lemma scan_tags_nodup (t : str) : NoDup (keys (scan_tags parts_of_speech t)).
Proof. rewrite scan_tags_found. apply built_dict. Qed.

Lemma scan_tags_keys (t : str) :
  keys (scan_tags parts_of_speech t) =
  first_seen (map fst (found_tags parts_of_speech t)).
Proof. rewrite scan_tags_found. apply built_dict. Qed.

(** ** The tag and definition disambiguator *)

(** C1 (as amended).  For the block text
    "bahay n. syn. tahanan house; home" the first occurrences of "n.",
    "syn." and "n" are at the indices 6, 9 and 6; the later vocabulary
    entry "n" takes the place of "n." under index 6, so the tags returned
    are ["n"; "syn."], and the definition text is "tahanan house; home". *)
Theorem bahay_tags_and_definition :
  let t := lit "bahay n. syn. tahanan house; home" in
  find t (lit "n.") = 6 /\ find t (lit "syn.") = 9 /\ find t (lit "n") = 6 /\
  disambiguate (block "bahay n. syn. tahanan house; home") =
  Ok ([lit "n"; lit "syn."], lit "tahanan house; home").
Proof. vm_compute. repeat split; reflexivity. Qed.

(** The same replacement on another entry: "adj" takes the place of
    "adj." under index 9, and the "n" of the headword is found as a tag. *)
Example masungit_tags_and_definition :
  disambiguate (block "masungit adj. ill-tempered; irritable") =
  Ok ([lit "n"; lit "adj"], lit ". ill-tempered; irritable").
Proof. vm_compute. reflexivity. Qed.

(** C1 as stated fails: the tags returned for that text are not
    ["n."; "syn."]. *)
Lemma bahay_tags_not_n_dot_syn :
  disambiguate (block "bahay n. syn. tahanan house; home") <>
  Ok ([lit "n."; lit "syn."], lit "tahanan house; home").
Proof. vm_compute. discriminate. Qed.

Lemma disambiguate_no_tag (e : Element) :
  (forall tag, In tag parts_of_speech -> find (text e) tag = -1) ->
  _get_parts_of_speech (Some e) = Raise ValueError /\
  disambiguate (Some e) = Raise ValueError.
Proof.
  intros H. apply no_tag_no_found, get_parts_of_speech_none in H.
  unfold disambiguate. rewrite H. split; reflexivity.
Qed.

(** C2 (as amended).  When no tag of the vocabulary occurs in the text of
    a definition block, the maximum of the empty set of indices is asked
    for, and both the tag extraction and the whole disambiguation raise
    [ValueError]. *)
Theorem no_tag_raises_ValueError (e : Element) :
  (forall tag, In tag parts_of_speech -> find (text e) tag = -1) ->
  _get_parts_of_speech (Some e) = Raise ValueError /\
  disambiguate (Some e) = Raise ValueError.
Proof. apply disambiguate_no_tag. Qed.

Lemma no_tag_in_bahay_house :
  forall tag, In tag parts_of_speech -> find (lit "bahay: house") tag = -1.
Proof.
  assert (forallb (fun tag => find (lit "bahay: house") tag =? -1) parts_of_speech
          = true) as H by (vm_compute; reflexivity).
  intros tag Hin. apply Z.eqb_eq. revert tag Hin. now apply forallb_forall.
Defined.

Lemma no_tag_raises_ValueError_witness :
  (forall tag, In tag parts_of_speech -> find (lit "bahay: house") tag = -1) /\
  _get_parts_of_speech (block "bahay: house") = Raise ValueError /\
  disambiguate (block "bahay: house") = Raise ValueError.
Proof.
  split; [exact no_tag_in_bahay_house|].
  apply (no_tag_raises_ValueError (mkElement (lit "bahay: house") [])).
  exact no_tag_in_bahay_house.
Defined.

(** C2 as stated fails: on a text with no known tag the error raised is
    not the dedicated [NoPartOfSpeechFoundError]. *)
Lemma no_tag_not_dedicated_error :
  (forall tag, In tag parts_of_speech -> find (lit "bahay: house") tag = -1) /\
  disambiguate (block "bahay: house") <>
  Raise (OtherException "NoPartOfSpeechFoundError").
Proof.
  split; [exact no_tag_in_bahay_house|]. vm_compute. discriminate.
Qed.

(** C10.  The tags returned by a successful extraction are all taken from
    the vocabulary, and none is returned twice. *)
Theorem parts_of_speech_in_vocabulary_nodup
  (element : option Element) (tags : list str) :
  _get_parts_of_speech element = Ok tags ->
  Forall (fun tag => In tag parts_of_speech) tags /\ NoDup tags.
Proof.
  destruct element as [e|]; [|discriminate]. intros H.
  destruct (found_tags parts_of_speech (text e)) as [|p found] eqn:Efound.
  { rewrite (get_parts_of_speech_none _ Efound) in H. discriminate. }
  assert (keys (scan_tags parts_of_speech (text e)) <> []) as Hne
    by (apply scan_tags_nonempty; rewrite Efound; discriminate).
  destruct (get_parts_of_speech_scan e Hne) as (m & nearest & _ & _ & Hin & Hget).
  rewrite Hget in H. injection H as <-.
  set (d := scan_tags parts_of_speech (text e)) in *.
  set (rest := filter (fun kv => negb (fst kv =? m)) d).
  assert (forall k v, In (k, v) rest -> In (k, v) d /\ k <> m) as Hrest.
  { intros k v Hkv. apply filter_In in Hkv as [Hkv Hk]. split; [assumption|].
    simpl in Hk. apply negb_true_iff, Z.eqb_neq in Hk. assumption. }
  split.
  - apply Forall_forall. intros tag Htag. apply in_app_or in Htag as [Htag|[<-|[]]].
    + apply in_map_iff in Htag as ([k v] & <- & Hkv).
      apply Hrest in Hkv as [Hkv _]. now apply scan_entry in Hkv.
    + now apply scan_entry in Hin.
  - apply NoDup_app.
    + apply (nodup_values_of_keys (find (text e))).
      * unfold rest. rewrite map_fst_filter_key. apply NoDup_filter, scan_tags_nodup.
      * intros k v Hkv. apply Hrest in Hkv as [Hkv _]. now apply scan_entry in Hkv.
    + repeat constructor. simpl. tauto.
    + intros tag Htag [<-|[]].
      apply in_map_iff in Htag as ([k v] & Hv & Hkv). simpl in Hv. subst v.
      apply Hrest in Hkv as [Hkv Hk]. apply scan_entry in Hkv as (_ & Hfind & _).
      apply scan_entry in Hin as (_ & Hfind' & _). congruence.
Qed.

Lemma parts_of_speech_in_vocabulary_nodup_witness :
  _get_parts_of_speech (block "bahay n. syn. tahanan house; home") =
  Ok [lit "n"; lit "syn."] /\
  Forall (fun tag => In tag parts_of_speech) [lit "n"; lit "syn."] /\
  NoDup [lit "n"; lit "syn."].
Proof.
  split; [vm_compute; reflexivity|].
  apply (parts_of_speech_in_vocabulary_nodup
           (block "bahay n. syn. tahanan house; home")).
  vm_compute; reflexivity.
Defined.

(** The disambiguation of a text in which some tag is found. *)
Lemma disambiguate_of_found (e : Element) :
  found_tags parts_of_speech (text e) <> [] ->
  let found := found_tags parts_of_speech (text e) in
  exists m leading nearest pre fragments fragment,
    In m (map fst found) /\
    Forall (fun p => fst p <= m) found /\
    latest_tag found m = Some nearest /\
    Forall2 (fun i tag => latest_tag found i = Some tag)
            (filter (fun i => negb (i =? m)) (first_seen (map fst found)))
            leading /\
    split (text e) nearest = Ok fragments /\
    last_item fragments = Ok fragment /\
    text e = pre ++ nearest ++ fragment /\
    find fragment nearest = -1 /\
    disambiguate (Some e) = Ok (leading ++ [nearest], strip fragment).
Proof.
  intros Hfound found.
  pose proof (scan_tags_nonempty _ Hfound) as Hne.
  destruct (get_parts_of_speech_scan e Hne) as (m & nearest & Hm & Hall & Hin & Hget).
  set (d := scan_tags parts_of_speech (text e)) in *.
  pose proof (scan_tags_keys (text e)) as Hkeys. fold d found in Hkeys.
  pose proof (scan_entry _ _ _ Hin) as (Hvoc & Hfind & Hnot).
  pose proof (parts_of_speech_nonempty _ Hvoc) as Hnonempty.
  destruct (split_last_fragment nearest Hnonempty (text e))
    as (fragment & Hlast & Hnone & Hshape).
  assert (exists pre, text e = pre ++ nearest ++ fragment) as [pre Hpre].
  { unfold find in Hfind. destruct (find_index (text e) nearest); [assumption|].
    congruence. }
  exists m, (map snd (filter (fun kv => negb (fst kv =? m)) d)), nearest, pre,
    (split_list (text e) nearest), fragment.
  split; [|split; [|split; [|split; [|split; [|split; [|split; [|split]]]]]]].
  - apply first_seen_In. now rewrite <- Hkeys.
  - apply Forall_forall. intros [i tag] Hp. simpl.
    rewrite Forall_forall in Hall. apply Hall. rewrite Hkeys.
    apply first_seen_In. change i with (fst (i, tag)). now apply in_map.
  - now apply scan_entry_found.
  - rewrite <- Hkeys. unfold keys. rewrite <- map_fst_filter_key.
    apply Forall2_fst_snd. intros i tag Hi. apply filter_In in Hi as [Hi _].
    now apply scan_entry_found.
  - unfold split. destruct nearest; [congruence | reflexivity].
  - exact Hlast.
  - exact Hpre.
  - now apply find_minus_one.
  - unfold disambiguate. rewrite Hget. cbn [bind].
    rewrite last_item_snoc. cbn [bind].
    unfold _get_definition, split. cbn [text_of bind].
    destruct nearest; [congruence|]. cbn [bind]. rewrite Hlast. reflexivity.
Qed.

(** C7 (as amended).  When at least one tag of the vocabulary occurs in
    the text, let [found] be the tags that occur, in vocabulary order, with
    the indices of their first occurrences, and [m] the greatest of these
    indices.  The tags returned are: for every distinct index other than
    [m], in the order in which the scan first meets the indices, the last
    vocabulary tag found at that index; then [nearest], the last vocabulary
    tag found at [m].  The definition text is the last fragment of the
    split of the text at [nearest], trimmed: that fragment follows an
    occurrence of [nearest] and holds no further occurrence of it. *)
Theorem disambiguate_found_tags (e : Element) :
  (exists tag, In tag parts_of_speech /\ find (text e) tag <> -1) ->
  let found := found_tags parts_of_speech (text e) in
  exists m leading nearest pre fragments fragment,
    In m (map fst found) /\
    Forall (fun p => fst p <= m) found /\
    latest_tag found m = Some nearest /\
    Forall2 (fun i tag => latest_tag found i = Some tag)
            (filter (fun i => negb (i =? m)) (first_seen (map fst found)))
            leading /\
    split (text e) nearest = Ok fragments /\
    last_item fragments = Ok fragment /\
    text e = pre ++ nearest ++ fragment /\
    find fragment nearest = -1 /\
    disambiguate (Some e) = Ok (leading ++ [nearest], strip fragment).
Proof.
  intros (tag & Hvoc & Hfind). apply disambiguate_of_found.
  exact (some_tag_found _ _ Hvoc Hfind).
Qed.

(** When no two of the found tags share an index, the dictionary of the
    scan is the list of the found tags itself, and the tags returned are
    all the found tags other than the one of greatest index, in
    vocabulary order, followed by that one. *)
Lemma get_parts_of_speech_distinct_indices (e : Element) :
  let found := found_tags parts_of_speech (text e) in
  found <> [] ->
  NoDup (map fst found) ->
  exists m nearest,
    In (m, nearest) found /\
    Forall (fun p => fst p <= m) found /\
    _get_parts_of_speech (Some e) =
    Ok (map snd (filter (fun p => negb (fst p =? m)) found) ++ [nearest]).
Proof.
  intros found Hfound Hnodup.
  assert (scan_tags parts_of_speech (text e) = found) as Hscan.
  { rewrite scan_tags_found. fold found. clearbody found. clear Hfound.
    induction found as [|[k v] found IH] using rev_ind; [reflexivity|].
    rewrite map_app in Hnodup. apply NoDup_remove in Hnodup as [Hnd Hnotin].
    rewrite app_nil_r in Hnd, Hnotin.
    rewrite fold_left_app. cbn [fold_left fst snd]. rewrite (IH Hnd).
    now apply (setitem_new Z.eqb Z.eqb_eq). }
  pose proof (scan_tags_nonempty _ Hfound) as Hne.
  destruct (get_parts_of_speech_scan e Hne) as (m & nearest & _ & Hall & Hin & Hget).
  rewrite Hscan in Hall, Hin, Hget.
  exists m, nearest. split; [exact Hin|]. split; [|exact Hget].
  apply Forall_forall. intros [i tag] Hp. rewrite Forall_forall in Hall.
  apply Hall. change i with (fst (i, tag)). now apply in_map.
Qed.

Lemma disambiguate_found_tags_witness :
  (exists tag, In tag parts_of_speech /\
               find (lit "bahay n. syn. tahanan house; home") tag <> -1) /\
  exists leading nearest fragment,
    disambiguate (block "bahay n. syn. tahanan house; home") =
    Ok (leading ++ [nearest], strip fragment).
Proof.
  assert (exists tag, In tag parts_of_speech /\
                      find (lit "bahay n. syn. tahanan house; home") tag <> -1) as H.
  { exists (lit "syn."). split; [vm_compute; tauto | vm_compute; discriminate]. }
  split; [exact H|].
  destruct (disambiguate_found_tags
              (mkElement (lit "bahay n. syn. tahanan house; home") []) H)
    as (_ & leading & nearest & _ & _ & fragment & _ & _ & _ & _ & _ & _ & _ & _ & Hd).
  exists leading, nearest, fragment. exact Hd.
Defined.

(** C7 as stated fails: in "bahay n. syn. tahanan house; home" the tag
    "n." of the vocabulary occurs, at index 6, which is not the greatest
    index (9, of "syn."), and yet "n." is not among the tags returned. *)
Lemma found_tag_missing_from_result :
  let t := lit "bahay n. syn. tahanan house; home" in
  In (lit "n.") parts_of_speech /\
  find t (lit "n.") = 6 /\
  find t (lit "syn.") = 9 /\
  Forall (fun p => fst p <= 9) (found_tags parts_of_speech t) /\
  exists tags definition,
    disambiguate (Some (mkElement t [])) = Ok (tags, definition) /\
    ~ In (lit "n.") tags.
Proof.
  cbv zeta. split; [vm_compute; tauto|].
  split; [vm_compute; reflexivity|]. split; [vm_compute; reflexivity|].
  split.
  - apply Forall_forall. intros p Hp. apply Z.leb_le. revert p Hp.
    apply forallb_forall. vm_compute. reflexivity.
  - exists [lit "n"; lit "syn."], (lit "tahanan house; home").
    split; [vm_compute; reflexivity|].
    intros [H|[H|[]]]; vm_compute in H; discriminate.
Qed.

(** ** Extraction of the entries *)

Section WordsInfo.

Variable World : Type.

(** What one pass of the inner loop's body does when it succeeds. *)
Lemma get_words_info_group_Ok (group : WordGroup) (words words' : words_dict)
  (st st' : State World) :
  _get_words_info_group World group words st = (Ok words', st') ->
  exists a d r,
    first_a group = Some a /\ definition_p group = Some d /\
    disambiguate (Some d) = Ok r /\
    words' = setitem str_eqb words (text a) (mkWordEntry (fst r) (snd r)).
Proof.
  unfold _get_words_info_group, mbind, lift, logging, ret.
  destruct (first_a group) as [a|]; simpl; [|discriminate].
  destruct (definition_p group) as [d|]; [|discriminate].
  destruct (disambiguate (Some d)) as [r|err] eqn:Hr; [|discriminate].
  intros [= <- _]. now exists a, d, r.
Qed.

(** The errors of one pass of the body are those of its block. *)
Lemma get_words_info_group_Raise (group : WordGroup) (words : words_dict)
  (st st' : State World) (err : exn) :
  _get_words_info_group World group words st = (Raise err, st') ->
  st' = st /\
  (first_a group = None /\ err = AttributeError \/
   disambiguate (definition_p group) = Raise err).
Proof.
  unfold _get_words_info_group, mbind, lift, logging, ret.
  destruct (first_a group) as [a|]; simpl.
  - destruct (disambiguate (definition_p group)) as [r|err']; [discriminate|].
    intros [= <- <-]. tauto.
  - intros [= <- <-]. tauto.
Qed.

Lemma get_words_info_groups_Ok (G : WordGroup -> Prop) (groups : list WordGroup) :
  (forall g, In g groups -> G g) ->
  forall (words words' : words_dict) (st st' : State World),
    (forall w en, In (w, en) words -> extracted G w en) ->
    _get_words_info_groups World groups words st = (Ok words', st') ->
    (forall w en, In (w, en) words' -> extracted G w en) /\
    (forall g, In g groups ->
       exists a d r, first_a g = Some a /\ definition_p g = Some d /\
                     disambiguate (Some d) = Ok r).
Proof.
  induction groups as [|g groups IH]; intros HG words words' st st' Hinv; simpl.
  - unfold ret. intros [= <- _]. split; [assumption | tauto].
  - unfold mbind at 1.
    destruct (_get_words_info_group World g words st) as [[words1|err] st1] eqn:E;
      [|discriminate].
    intros Hrest.
    destruct (get_words_info_group_Ok _ _ _ _ _ E) as (a & d & [tags def] & Ha & Hd & Hr & ->).
    assert (forall g', In g' groups -> G g') as HGrest
      by (intros g' Hg'; apply HG; now right).
    assert (forall w en,
              In (w, en) (setitem str_eqb words (text a) (mkWordEntry tags def)) ->
              extracted G w en) as Hinv1.
    { intros w en Hin. apply (setitem_In str_eqb str_eqb_eq) in Hin as [[= -> ->]|Hin];
        [|now apply Hinv].
      exists g, a, d. simpl. repeat split; try assumption. apply HG. now left. }
    destruct (IH HGrest _ _ _ _ Hinv1 Hrest) as [Hentries Hgroups].
    split; [assumption|].
    intros g' [<-|Hg']; [|now apply Hgroups]. now exists a, d, (tags, def).
Qed.

Lemma get_words_info_pages_Ok (G : WordGroup -> Prop) (htmls : list HTML) :
  (forall page g, In page htmls -> In g (word_groups page) -> G g) ->
  forall (words words' : words_dict) (st st' : State World),
    (forall w en, In (w, en) words -> extracted G w en) ->
    _get_words_info_pages World htmls words st = (Ok words', st') ->
    (forall w en, In (w, en) words' -> extracted G w en) /\
    (forall page g, In page htmls -> In g (word_groups page) ->
       exists a d r, first_a g = Some a /\ definition_p g = Some d /\
                     disambiguate (Some d) = Ok r).
Proof.
  induction htmls as [|page htmls IH]; intros HG words words' st st' Hinv; simpl.
  - unfold ret. intros [= <- _]. split; [assumption | tauto].
  - unfold mbind at 1.
    destruct (_get_words_info_groups World (word_groups page) words st)
      as [[words1|err] st1] eqn:E; [|discriminate].
    intros Hrest.
    assert (forall g, In g (word_groups page) -> G g) as HGpage
      by (intros g Hg; apply (HG page); [now left | assumption]).
    destruct (get_words_info_groups_Ok G _ HGpage _ _ _ _ Hinv E)
      as [Hentries1 Hgroups1].
    assert (forall page' g, In page' htmls -> In g (word_groups page') -> G g)
      as HGrest by (intros page' g Hpage Hg; apply (HG page'); [now right | assumption]).
    destruct (IH HGrest _ _ _ _ Hentries1 Hrest) as [Hentries Hgroups].
    split; [assumption|].
    intros page' g [<-|Hpage] Hg; [now apply Hgroups1 | now apply (Hgroups page')].
Qed.

End WordsInfo.

(** The errors of a disambiguation: no block at all, or no known tag. *)
Lemma disambiguate_Raise (element : option Element) (err : exn) :
  disambiguate element = Raise err -> err = ValueError \/ err = AttributeError.
Proof.
  destruct element as [e|]; [|intros [= <-]; tauto].
  destruct (found_tags parts_of_speech (text e)) as [|p found] eqn:Efound.
  - unfold disambiguate. rewrite (get_parts_of_speech_none _ Efound).
    intros [= <-]. tauto.
  - assert (found_tags parts_of_speech (text e) <> []) as Hne
      by (rewrite Efound; discriminate).
    destruct (disambiguate_of_found e Hne)
      as (? & ? & ? & ? & ? & ? & _ & _ & _ & _ & _ & _ & _ & _ & ->).
    discriminate.
Qed.

Lemma get_words_info_groups_Raise (World : Type) (groups : list WordGroup) :
  forall (words : words_dict) (st st' : State World) (err : exn),
    _get_words_info_groups World groups words st = (Raise err, st') ->
    err = ValueError \/ err = AttributeError.
Proof.
  induction groups as [|g groups IH]; intros words st st' err; simpl.
  - discriminate.
  - unfold mbind at 1.
    destruct (_get_words_info_group World g words st) as [[words1|err1] st1] eqn:E.
    + apply IH.
    + intros [= <- <-].
      apply get_words_info_group_Raise in E as [_ [[_ ->]|E]]; [tauto|].
      now apply disambiguate_Raise in E.
Qed.

Lemma get_words_info_pages_Raise (World : Type) (htmls : list HTML) :
  forall (words : words_dict) (st st' : State World) (err : exn),
    _get_words_info_pages World htmls words st = (Raise err, st') ->
    err = ValueError \/ err = AttributeError.
Proof.
  induction htmls as [|page htmls IH]; intros words st st' err; simpl.
  - discriminate.
  - unfold mbind at 1.
    destruct (_get_words_info_groups World (word_groups page) words st)
      as [[words1|err1] st1] eqn:E.
    + apply IH.
    + intros [= <- <-]. now apply get_words_info_groups_Raise in E.
Qed.

(** C8.  Every entry of a dictionary that [_get_words_info] returns has a
    non-empty list of tags; the last of them is the string at which the
    text of the entry's definition block was split, the definition being
    the last fragment, trimmed; and the definition does not start with
    that tag. *)
Theorem word_entry_invariant (World : Type) (htmls : list HTML)
  (st st' : State World) (words : words_dict) :
  _get_words_info World htmls st = (Ok words, st') ->
  forall word entry, In (word, entry) words ->
    entry_parts_of_speech entry <> [] /\
    exists page group d tag fragments fragment,
      In page htmls /\ In group (word_groups page) /\
      definition_p group = Some d /\
      last_item (entry_parts_of_speech entry) = Ok tag /\
      split (text d) tag = Ok fragments /\
      last_item fragments = Ok fragment /\
      entry_definition entry = strip fragment /\
      startswith (entry_definition entry) tag = false.
Proof.
  intros Hrun word entry Hin.
  set (G := fun g => exists page, In page htmls /\ In g (word_groups page)).
  assert (forall page g, In page htmls -> In g (word_groups page) -> G g) as HG
    by (intros page g Hp Hg; now exists page).
  assert (forall w en, In (w, en) (@nil (str * WordEntry)) -> extracted G w en)
    as Hnil by (intros w en []).
  destruct (get_words_info_pages_Ok World G htmls HG _ _ _ _ Hnil Hrun)
    as [Hentries _].
  destruct (Hentries _ _ Hin) as (group & a & d & [page [Hpage Hgroup]] & _ & Hd & _ & Hdis).
  apply disambiguate_Ok in Hdis
    as (leading & nearest & fragments & fragment & Htags & _ & Hsplit & Hlast & Hfind & Hdef).
  split.
  - rewrite Htags. now destruct leading.
  - exists page, group, d, nearest, fragments, fragment.
    rewrite Htags, Hdef, last_item_snoc. repeat split; try assumption.
    apply strip_not_startswith. now apply find_minus_one.
Qed.

Lemma word_entry_invariant_witness :
  let htmls :=
    [mkHTML None [entry_group "bahay" "bahay n. syn. tahanan house; home"]] in
  let entry := mkWordEntry [lit "n"; lit "syn."] (lit "tahanan house; home") in
  _get_words_info unit htmls (mkState tt []) =
  (Ok [(lit "bahay", entry)],
   mkState tt [InfoWord (lit "bahay") [lit "n"; lit "syn."]
                        (lit "tahanan house; home")]) /\
  entry_parts_of_speech entry <> [] /\
  exists tag,
    last_item (entry_parts_of_speech entry) = Ok tag /\
    startswith (entry_definition entry) tag = false.
Proof.
  intros htmls entry.
  assert (_get_words_info unit htmls (mkState tt []) =
          (Ok [(lit "bahay", entry)],
           mkState tt [InfoWord (lit "bahay") [lit "n"; lit "syn."]
                                (lit "tahanan house; home")])) as Hrun
    by (vm_compute; reflexivity).
  split; [exact Hrun|].
  destruct (word_entry_invariant unit htmls _ _ _ Hrun (lit "bahay") entry
              (or_introl eq_refl))
    as (Hne & _ & _ & _ & tag & _ & _ & _ & _ & _ & Hlast & _ & _ & _ & Hstart).
  split; [exact Hne|]. exists tag. split; [exact Hlast | exact Hstart].
Defined.

(** C3 (as amended).  Nothing catches the error of an entry: when the
    definition block of one word group of one page holds no known tag,
    [_get_words_info] raises and returns no dictionary, whatever the
    other entries and pages are.  The error is the [ValueError] of a
    block without known tag, or the [AttributeError] of a word group
    that lacks its link or its definition block. *)
Theorem no_tag_entry_aborts_extraction (World : Type) (htmls : list HTML)
  (page : HTML) (group : WordGroup) (d : Element) (st : State World) :
  In page htmls -> In group (word_groups page) ->
  definition_p group = Some d ->
  (forall tag, In tag parts_of_speech -> find (text d) tag = -1) ->
  exists err st',
    _get_words_info World htmls st = (Raise err, st') /\
    (err = ValueError \/ err = AttributeError).
Proof.
  intros Hpage Hgroup Hd Hnone.
  destruct (_get_words_info World htmls st) as [[words|err] st'] eqn:Hrun.
  - exfalso.
    assert (forall w en, In (w, en) (@nil (str * WordEntry)) ->
                         extracted (fun _ => True) w en) as Hnil by (intros w en []).
    destruct (get_words_info_pages_Ok World (fun _ => True) htmls
                (fun _ _ _ _ => I) _ _ _ _ Hnil Hrun) as [_ Hgroups].
    destruct (Hgroups _ _ Hpage Hgroup) as (a & d' & r & _ & Hd' & Hr).
    rewrite Hd in Hd'. injection Hd' as <-.
    destruct (disambiguate_no_tag d Hnone). congruence.
  - exists err, st'. split; [reflexivity|].
    now apply get_words_info_pages_Raise in Hrun.
Qed.

Lemma no_tag_entry_aborts_extraction_witness :
  In page_bahay_aso [page_bahay_aso] /\
  In (entry_group "bahay" "bahay: house") (word_groups page_bahay_aso) /\
  definition_p (entry_group "bahay" "bahay: house") =
  Some (mkElement (lit "bahay: house") []) /\
  (forall tag, In tag parts_of_speech -> find (lit "bahay: house") tag = -1) /\
  exists err st',
    _get_words_info unit [page_bahay_aso] (mkState tt []) = (Raise err, st') /\
    (err = ValueError \/ err = AttributeError).
Proof.
  split; [now left|]. split; [now left|]. split; [reflexivity|].
  split; [exact no_tag_in_bahay_house|].
  apply (no_tag_entry_aborts_extraction unit [page_bahay_aso] page_bahay_aso
           (entry_group "bahay" "bahay: house")
           (mkElement (lit "bahay: house") [])).
  - now left.
  - now left.
  - reflexivity.
  - exact no_tag_in_bahay_house.
Defined.

(** C3 as stated fails: with an entry whose block holds no known tag
    followed by a well-formed entry, no dictionary is returned (so the
    second entry is not recorded) and nothing is logged. *)
Lemma no_tag_entry_not_skipped :
  (forall tag, In tag parts_of_speech -> find (lit "bahay: house") tag = -1) /\
  _get_words_info unit [page_bahay_aso] (mkState tt []) =
  (Raise ValueError, mkState tt []) /\
  forall words st',
    _get_words_info unit [page_bahay_aso] (mkState tt []) <> (Ok words, st').
Proof.
  assert (_get_words_info unit [page_bahay_aso] (mkState tt []) =
          (Raise ValueError, mkState tt [])) as H by (vm_compute; reflexivity).
  split; [exact no_tag_in_bahay_house|]. split; [exact H|].
  intros words st'. rewrite H. discriminate.
Qed.

(** ** Pagination *)

Lemma second_last_item_snoc2 {A : Type} (l : list A) (x y : A) :
  second_last_item (l ++ [x; y]) = Ok x.
Proof. unfold second_last_item. now rewrite rev_app_distr. Qed.

Lemma find_index_single_app (a b : str) (c : ascii) :
  find_index (a ++ c :: b) [c] =
  match find_index a [c] with
  | Some i => Some i
  | None => Some (length a)
  end.
Proof.
  induction a as [|x a IH]; simpl.
  - now rewrite Ascii.eqb_refl.
  - rewrite IH. destruct (Ascii.eqb c x); simpl; [reflexivity|].
    destruct (find_index a [c]); reflexivity.
Qed.

(** For a separator of one character, the fragments of [a ++ c :: b] are
    those of [a] followed by those of [b]. *)
Lemma split_list_single_app (c : ascii) (b : str) :
  forall a, split_list (a ++ c :: b) [c] = split_list a [c] ++ split_list b [c].
Proof.
  intros a. remember (length a) as n eqn:Hn. revert a Hn.
  induction n as [n IH] using lt_wf_ind. intros a Hn.
  rewrite (split_list_unfold (a ++ c :: b)) by discriminate.
  rewrite (split_list_unfold a) by discriminate.
  rewrite find_index_single_app.
  destruct (find_index a [c]) as [i|] eqn:F.
  - destruct (find_index_Some _ _ _ F) as (pre & post & Ha & Hi).
    simpl in Ha. subst a i.
    rewrite <- !app_assoc. cbn [app length].
    rewrite !firstn_app, !firstn_all, Nat.sub_diag. cbn [firstn].
    rewrite !skipn_app, !skipn_all2 by lia.
    replace (length pre + 1 - length pre)%nat with 1%nat by lia.
    cbn [skipn app].
    rewrite (IH (length post)) with (a := post); [reflexivity | | reflexivity].
    subst n. rewrite length_app. cbn [length]. lia.
  - cbn [length]. rewrite firstn_app, firstn_all2 by lia.
    replace (length a - length a)%nat with 0%nat by lia.
    rewrite skipn_app, skipn_all2 by lia.
    replace (length a + 1 - length a)%nat with 1%nat by lia.
    cbn [firstn skipn app]. now rewrite app_nil_r.
Qed.

(** The second to last fragment of a link target that ends in "/" is its
    trailing path segment. *)
Lemma trailing_segment (pre segment : str) :
  find segment (lit "/") = -1 ->
  second_last_item (split_list (pre ++ lit "/" ++ segment ++ lit "/") (lit "/"))
  = Ok segment.
Proof.
  intros Hnone. apply find_minus_one in Hnone. change (lit "/") with ["/"%char] in *.
  cbn [app]. rewrite !split_list_single_app.
  rewrite (split_list_unfold segment) by discriminate. rewrite Hnone.
  change (split_list [] ["/"%char]) with [@nil ascii].
  apply (second_last_item_snoc2 (split_list pre ["/"%char]) segment []).
Qed.

(** C5 (as amended).  Without an anchor whose title begins with "Last" the
    exclusive last page is 2.  With such an anchor whose link target ends
    in "/", the trailing path segment parsing as the integer [k], it is
    [k + 1]; more generally the segment read is the second to last
    "/"-separated component of the link target.  Only the absence of the
    anchor is handled: an anchor without link target raises [KeyError], a
    link target without "/" raises [IndexError], and a component that is
    not an integer raises [ValueError]. *)
Theorem scrape_last_page_cases (response : HTML) :
  (last_anchor response = None -> scrape_last_page response = Ok 2) /\
  (forall anchor pre segment k,
     last_anchor response = Some anchor ->
     attr anchor (lit "href") = Ok (pre ++ lit "/" ++ segment ++ lit "/") ->
     find segment (lit "/") = -1 ->
     py_int segment = Ok k ->
     scrape_last_page response = Ok (k + 1)) /\
  (forall anchor href fragments segment k,
     last_anchor response = Some anchor ->
     attr anchor (lit "href") = Ok href ->
     split href (lit "/") = Ok fragments ->
     second_last_item fragments = Ok segment ->
     py_int segment = Ok k ->
     scrape_last_page response = Ok (k + 1)) /\
  (forall anchor,
     last_anchor response = Some anchor ->
     getitem str_eqb (attrs anchor) (lit "href") = None ->
     scrape_last_page response = Raise KeyError) /\
  (forall anchor href,
     last_anchor response = Some anchor ->
     attr anchor (lit "href") = Ok href ->
     find href (lit "/") = -1 ->
     scrape_last_page response = Raise IndexError) /\
  (forall anchor href fragments segment,
     last_anchor response = Some anchor ->
     attr anchor (lit "href") = Ok href ->
     split href (lit "/") = Ok fragments ->
     second_last_item fragments = Ok segment ->
     py_int segment = Raise ValueError ->
     scrape_last_page response = Raise ValueError).
Proof.
  unfold scrape_last_page.
  split; [intros ->; reflexivity|].
  split.
  { intros anchor pre segment k -> Hhref Hseg Hint. cbn [attrs_of bind].
    rewrite Hhref. cbn [bind]. change (split ?h (lit "/")) with (Ok (split_list h (lit "/"))).
    cbn [bind]. rewrite (trailing_segment pre segment Hseg). cbn [bind].
    rewrite Hint. reflexivity. }
  split.
  { intros anchor href fragments segment k -> Hhref Hsplit Hseg Hint.
    cbn [attrs_of bind]. rewrite Hhref. cbn [bind]. rewrite Hsplit. cbn [bind].
    rewrite Hseg. cbn [bind]. rewrite Hint. reflexivity. }
  split.
  { intros anchor -> Hget. cbn [attrs_of bind]. unfold attr. rewrite Hget.
    reflexivity. }
  split.
  { intros anchor href -> Hhref Hnone. cbn [attrs_of bind]. rewrite Hhref.
    cbn [bind]. change (split href (lit "/")) with (Ok (split_list href (lit "/"))).
    cbn [bind]. rewrite split_list_unfold by discriminate.
    apply find_minus_one in Hnone. rewrite Hnone. reflexivity. }
  intros anchor href fragments segment -> Hhref Hsplit Hseg Hint.
  cbn [attrs_of bind]. rewrite Hhref. cbn [bind]. rewrite Hsplit. cbn [bind].
  rewrite Hseg. cbn [bind]. rewrite Hint. reflexivity.
Qed.

Lemma scrape_last_page_cases_witness :
  scrape_last_page (mkHTML None []) = Ok 2 /\
  scrape_last_page
    (page_with_last "https://tagalog.pinoydictionary.com/list/a/25/") = Ok 26.
Proof.
  split.
  - apply (proj1 (scrape_last_page_cases (mkHTML None []))). reflexivity.
  - apply (proj1 (proj2 (scrape_last_page_cases
                           (page_with_last
                              "https://tagalog.pinoydictionary.com/list/a/25/")))
             (mkElement (lit "Last")
                [(lit "href", lit "https://tagalog.pinoydictionary.com/list/a/25/")])
             (lit "https://tagalog.pinoydictionary.com/list/a")
             (lit "25") 25).
    + reflexivity.
    + vm_compute; reflexivity.
    + vm_compute; reflexivity.
    + vm_compute; reflexivity.
Defined.

(** C5 as stated fails: a malformed anchor is not treated as an absent
    one.  An anchor without link target, a link target without "/", a
    link target whose trailing segment is not an integer, and a link
    target that does not end in "/" all raise instead of giving 2. *)
Lemma malformed_last_anchor_raises :
  scrape_last_page (mkHTML (Some (mkElement (lit "Last") [])) []) = Raise KeyError /\
  scrape_last_page (page_with_last "javascript:void(0)") = Raise IndexError /\
  scrape_last_page (page_with_last "/list/a/last/") = Raise ValueError /\
  scrape_last_page (page_with_last "/list/a/25") = Raise ValueError /\
  scrape_last_page (mkHTML (Some (mkElement (lit "Last") [])) []) <> Ok 2.
Proof. vm_compute. repeat split; try reflexivity. discriminate. Qed.

(** ** Listing addresses *)

Lemma range2_nth (start stop : Z) (i : nat) :
  nth_error (range2 start stop) i =
  if (i <? Z.to_nat (stop - start))%nat then Some (start + Z.of_nat i) else None.
Proof.
  unfold range2, range_length. cbn [Z.ltb Z.compare].
  replace ((stop - start + 1 - 1) / 1) with (stop - start)
    by (rewrite Z.div_1_r; lia).
  rewrite nth_error_map, nth_error_seq.
  destruct (i <? Z.to_nat (stop - start))%nat; simpl; [|reflexivity].
  f_equal. lia.
Qed.

Lemma range2_length (start stop : Z) :
  length (range2 start stop) = Z.to_nat (stop - start).
Proof.
  unfold range2, range_length. cbn [Z.ltb Z.compare].
  rewrite length_map, length_seq, Z.div_1_r. f_equal. lia.
Qed.

(** C6 (as amended).  [_get_all_urls_by_letter letter n] holds [n - 1]
    addresses when [n >= 1] and none otherwise; when there are any, the
    first is the letter's path with an empty page segment, and for every
    page [k] from 2 to [n - 1] the address at position [k - 1] is the
    letter's path followed by the page segment [k]. *)
Theorem get_all_urls_by_letter_pages (letter : str) (n : Z) :
  length (_get_all_urls_by_letter letter n) = Z.to_nat (n - 1) /\
  (2 <= n ->
   nth_error (_get_all_urls_by_letter letter n) 0 =
   Some (url ++ lit "/list/" ++ letter ++ lit "//")) /\
  (forall k, 2 <= k < n ->
   nth_error (_get_all_urls_by_letter letter n) (Z.to_nat (k - 1)) =
   Some (url ++ lit "/list/" ++ letter ++ lit "/" ++ str_of_int k ++ lit "/")).
Proof.
  unfold _get_all_urls_by_letter. split; [|split].
  - now rewrite length_map, range2_length.
  - intros Hn. rewrite nth_error_map, range2_nth.
    replace (0 <? Z.to_nat (n - 1))%nat with true
      by (symmetry; apply Nat.ltb_lt; lia).
    reflexivity.
  - intros k Hk. rewrite nth_error_map, range2_nth.
    replace (Z.to_nat (k - 1) <? Z.to_nat (n - 1))%nat with true
      by (symmetry; apply Nat.ltb_lt; lia).
    replace (1 + Z.of_nat (Z.to_nat (k - 1))) with k by lia.
    cbn [option_map]. unfold page_url.
    replace (k =? 1) with false by (symmetry; apply Z.eqb_neq; lia).
    reflexivity.
Qed.

Lemma get_all_urls_by_letter_pages_witness :
  map string_of_list_ascii (_get_all_urls_by_letter (lit "a") 4) =
  [ "https://tagalog.pinoydictionary.com/list/a//";
    "https://tagalog.pinoydictionary.com/list/a/2/";
    "https://tagalog.pinoydictionary.com/list/a/3/" ]%string /\
  length (_get_all_urls_by_letter (lit "a") 4) = 3%nat /\
  nth_error (_get_all_urls_by_letter (lit "a") 4) 2 =
  Some (lit "https://tagalog.pinoydictionary.com/list/a/3/").
Proof.
  split; [vm_compute; reflexivity|]. split.
  - apply (proj1 (get_all_urls_by_letter_pages (lit "a") 4)).
  - apply (proj2 (proj2 (get_all_urls_by_letter_pages (lit "a") 4)) 3). lia.
Defined.

(** C6 as stated fails for [n <= 0]: no address is produced, not [n - 1]
    of them. *)
Lemma get_all_urls_by_letter_zero :
  _get_all_urls_by_letter (lit "a") 0 = [] /\
  Z.of_nat (length (_get_all_urls_by_letter (lit "a") 0)) <> 0 - 1.
Proof. split; [reflexivity | vm_compute; discriminate]. Qed.

(** ** Chunks *)

Lemma slice_firstn_skipn {A : Type} (l : list A) (a b : Z) :
  0 <= a -> a <= b ->
  slice l a b = firstn (Z.to_nat (b - a)) (skipn (Z.to_nat a) l).
Proof.
  intros Ha Hab. unfold slice, slice_bound.
  replace (a <? 0) with false by (symmetry; apply Z.ltb_ge; lia).
  replace (b <? 0) with false by (symmetry; apply Z.ltb_ge; lia).
  set (len := Z.of_nat (length l)).
  destruct (Z_le_gt_dec a len) as [Hle|Hgt].
  - rewrite (Z.min_l a len) by lia.
    destruct (Z_le_gt_dec b len) as [Hble|Hbgt].
    + now rewrite (Z.min_l b len) by lia.
    + rewrite (Z.min_r b len) by lia.
      rewrite !firstn_all2; [reflexivity | |]; rewrite length_skipn; lia.
  - rewrite (Z.min_r a len), (Z.min_r b len) by lia.
    rewrite Z.sub_diag. cbn [Z.to_nat firstn].
    rewrite (skipn_all2 l) by lia. now rewrite firstn_nil.
Qed.

Lemma firstn_add_skipn {A : Type} (l : list A) (i j : nat) :
  firstn i l ++ firstn j (skipn i l) = firstn (i + j) l.
Proof.
  rewrite firstn_skipn_comm.
  rewrite <- (firstn_skipn i (firstn (i + j) l)) at 2.
  f_equal. rewrite firstn_firstn. f_equal. lia.
Qed.

Lemma concat_consecutive {A : Type} (l : list A) (size count : nat) :
  concat (map (fun k => firstn size (skipn (k * size) l)) (seq 0 count)) =
  firstn (count * size) l.
Proof.
  induction count as [|count IH].
  - reflexivity.
  - rewrite seq_S, map_app, concat_app, IH. cbn [map concat plus].
    rewrite app_nil_r, firstn_add_skipn. f_equal. lia.
Qed.

(** With a positive size, [chunk_list] cuts the list every [n] elements. *)
Lemma chunk_list_pos {A : Type} (l : list A) (n : Z) :
  0 < n ->
  chunk_list l n =
  Ok (map (fun k => firstn (Z.to_nat n) (skipn (k * Z.to_nat n) l))
          (seq 0 (Z.to_nat ((Z.of_nat (length l) + n - 1) / n)))).
Proof.
  intros Hn. unfold chunk_list, range, range_length.
  replace (n =? 0) with false by (symmetry; apply Z.eqb_neq; lia).
  replace (0 <? n) with true by (symmetry; apply Z.ltb_lt; lia).
  cbn [bind]. rewrite map_map, Z.sub_0_r. f_equal.
  apply map_ext. intros k.
  rewrite slice_firstn_skipn by nia.
  f_equal; [f_equal; lia|]. f_equal. nia.
Qed.

Lemma chunk_count_covers (len n : Z) :
  0 <= len -> 0 < n ->
  let count := (len + n - 1) / n in
  0 <= count /\ len <= count * n /\ (count - 1) * n < len \/ len = 0 /\ count = 0.
Proof.
  intros Hlen Hn count.
  pose proof (Z.div_mod (len + n - 1) n ltac:(lia)) as Hdiv.
  pose proof (Z.mod_pos_bound (len + n - 1) n Hn) as Hmod.
  fold count in Hdiv.
  destruct (Z.eq_dec len 0) as [->|Hne].
  - right. split; [reflexivity|]. subst count.
    apply Z.div_small. lia.
  - left. nia.
Qed.

(** The chunks of a list are consecutive, not empty, at most [n] long,
    and together make up the list. *)
Lemma chunk_list_partition {A : Type} (l : list A) (n : Z) :
  0 < n ->
  exists chunks,
    chunk_list l n = Ok chunks /\
    concat chunks = l /\
    Forall (fun chunk => (1 <= length chunk)%nat /\ Z.of_nat (length chunk) <= n)
           chunks.
Proof.
  intros Hn. rewrite chunk_list_pos by assumption.
  set (len := Z.of_nat (length l)).
  set (count := Z.to_nat ((len + n - 1) / n)).
  pose proof (chunk_count_covers len n ltac:(lia) Hn) as Hcount.
  cbv zeta in Hcount.
  eexists. split; [reflexivity|]. split.
  - rewrite concat_consecutive. apply firstn_all2. subst count. nia.
  - apply Forall_forall. intros chunk Hin.
    apply in_map_iff in Hin as (k & <- & Hk). apply in_seq in Hk.
    rewrite length_firstn, length_skipn. subst count. nia.
Qed.

(** ** Fetching the pages *)

Section Fetching.

Variable World : Type.
Variable session_get : str -> World -> result Response * World.
Variable session_run : list str -> World -> result (list Response) * World.

(** The loop over the chunks: either every chunk was run, one after the
    other, and the documents of their results were appended in that
    order, or the run of some chunk raised. *)
Lemma run_chunks_results (chunks : list (list str)) :
  forall (all_results : list HTML) (st : State World),
    match run_chunks World session_run chunks all_results st with
    | (Ok htmls, st') =>
        exists results,
          chunks_run session_run chunks (world st) results (world st') /\
          htmls = all_results ++ map html (concat results) /\
          log st' = log st
    | (Raise err, st') =>
        exists chunk w, In chunk chunks /\ fst (session_run chunk w) = Raise err
    end.
Proof.
  induction chunks as [|chunk chunks IH]; intros all_results st.
  - simpl. exists []. split; [constructor|]. now rewrite app_nil_r.
  - cbn [run_chunks]. unfold mbind at 1, on_world.
    destruct (session_run chunk (world st)) as [[rs|err] w'] eqn:Hrun.
    + specialize (IH (all_results ++ map html rs) (mkState w' (log st))).
      destruct (run_chunks World session_run chunks _ _) as [[htmls|err] st'].
      * destruct IH as (results & Hruns & -> & Hlog).
        exists (rs :: results). split; [|split].
        -- now apply chunks_run_cons with (w' := w').
        -- cbn [concat]. now rewrite map_app, app_assoc.
        -- exact Hlog.
      * destruct IH as (chunk' & w & Hin & Hraise).
        exists chunk', w. split; [now right | exact Hraise].
    + exists chunk, (world st). split; [now left|]. now rewrite Hrun.
Qed.

Lemma chunks_run_requested (chunks : list (list str)) (w w' : World)
  (results : list (list Response)) :
  (forall chunk w rs w',
     session_run chunk w = (Ok rs, w') -> map requested rs = chunk) ->
  chunks_run session_run chunks w results w' ->
  map requested (concat results) = concat chunks.
Proof.
  intros Horder Hruns. induction Hruns as [|chunk chunks w w' w'' rs results Hrun _ IH].
  - reflexivity.
  - cbn [concat]. rewrite map_app, IH. f_equal. exact (Horder _ _ _ _ Hrun).
Qed.

End Fetching.

(** C9 (as amended).  With a positive batch size, the addresses are cut
    into consecutive chunks, none empty and none longer than the batch
    size, whose concatenation is the list of addresses.  The chunks are
    run one after another, each from the world its predecessor left.
    When every run returns, the documents returned are those of the
    results of the chunks, chunk after chunk, each chunk's results in the
    order in which the transport's [run] gives them; they are in the
    order of the addresses only when [run] answers every chunk in the
    order of its addresses.  When a run raises, so does the whole
    call. *)
Theorem get_pages_content_async_chunks (World : Type)
  (session_run : list str -> World -> result (list Response) * World)
  (urls : list str) (max_urls : Z) (st : State World) :
  0 < max_urls ->
  exists chunks,
    chunk_list urls max_urls = Ok chunks /\
    concat chunks = urls /\
    Forall (fun chunk => (1 <= length chunk)%nat /\
                         Z.of_nat (length chunk) <= max_urls) chunks /\
    match _get_pages_content_async World session_run urls max_urls st with
    | (Ok htmls, st') =>
        exists results,
          chunks_run session_run chunks (world st) results (world st') /\
          htmls = concat (map (map html) results) /\
          ((forall chunk w rs w',
              session_run chunk w = (Ok rs, w') -> map requested rs = chunk) ->
           map requested (concat results) = urls)
    | (Raise err, st') =>
        exists chunk w, In chunk chunks /\ fst (session_run chunk w) = Raise err
    end.
Proof.
  intros Hpos.
  destruct (chunk_list_partition urls max_urls Hpos) as (chunks & Hchunks & Hconcat & Hsizes).
  exists chunks. split; [exact Hchunks|]. split; [exact Hconcat|].
  split; [exact Hsizes|].
  unfold _get_pages_content_async, mbind, lift. rewrite Hchunks.
  pose proof (run_chunks_results World session_run chunks [] st) as Hrun.
  destruct (run_chunks World session_run chunks [] st) as [[htmls|err] st'].
  - destruct Hrun as (results & Hruns & -> & _). exists results.
    split; [exact Hruns|]. split; [apply concat_map|].
    intros Horder. rewrite <- Hconcat.
    exact (chunks_run_requested World session_run _ _ _ _ Horder Hruns).
  - exact Hrun.
Qed.

Lemma get_pages_content_async_chunks_witness :
  let urls := _get_all_urls_by_letter (lit "a") 6 in
  0 < 2 /\
  chunk_list urls 2 =
  Ok [[lit "https://tagalog.pinoydictionary.com/list/a//";
       lit "https://tagalog.pinoydictionary.com/list/a/2/"];
      [lit "https://tagalog.pinoydictionary.com/list/a/3/";
       lit "https://tagalog.pinoydictionary.com/list/a/4/"];
      [lit "https://tagalog.pinoydictionary.com/list/a/5/"]] /\
  _get_pages_content_async unit run_each urls 2 (mkState tt []) =
  (Ok [empty_page; empty_page; empty_page; empty_page; empty_page],
   mkState tt []) /\
  exists chunks,
    chunk_list urls 2 = Ok chunks /\ concat chunks = urls.
Proof.
  intros urls.
  split; [reflexivity|].
  split; [vm_compute; reflexivity|].
  split; [vm_compute; reflexivity|].
  destruct (get_pages_content_async_chunks unit run_each urls 2 (mkState tt [])
              eq_refl) as (chunks & Hchunks & Hconcat & _).
  exists chunks. split; [exact Hchunks | exact Hconcat].
Defined.

(** The transport [run_each] answers a chunk in the order of its
    addresses. *)
Lemma run_each_requested (chunk : list str) (w w' : unit) (rs : list Response) :
  run_each chunk w = (Ok rs, w') -> map requested rs = chunk.
Proof.
  unfold run_each. intros [= <- _]. rewrite map_map. cbn [requested]. apply map_id.
Qed.

(** C9 as stated fails: nothing in the code puts the results of a chunk
    back in the order of its addresses.  With three addresses, a batch
    size of 2 and a transport whose [run] answers a chunk last address
    first, the documents returned are those of the second, the first and
    the third address. *)
Lemma batched_results_out_of_order :
  let u1 := lit "https://tagalog.pinoydictionary.com/list/a//" in
  let u2 := lit "https://tagalog.pinoydictionary.com/list/a/2/" in
  let u3 := lit "https://tagalog.pinoydictionary.com/list/a/3/" in
  _get_all_urls_by_letter (lit "a") 4 = [u1; u2; u3] /\
  chunk_list [u1; u2; u3] 2 = Ok [[u1; u2]; [u3]] /\
  _get_pages_content_async unit run_reversed [u1; u2; u3] 2 (mkState tt []) =
  (Ok [page_named u2; page_named u1; page_named u3], mkState tt []) /\
  [page_named u2; page_named u1; page_named u3] <> map page_named [u1; u2; u3].
Proof.
  cbv zeta. split; [vm_compute; reflexivity|]. split; [vm_compute; reflexivity|].
  split; [vm_compute; reflexivity|]. vm_compute. discriminate.
Qed.

Section SequentialFetching.

Variable fetch : str -> result Response.

Lemma get_url_content_stateless (u : str) (st : State unit) :
  _get_url_content unit (stateless fetch) u st =
  (match fetch u with
   | Ok response => Ok (html response)
   | Raise e => Raise e
   end, mkState tt (log st)).
Proof.
  unfold _get_url_content, mbind, on_world, stateless, ret.
  destruct st as [[] lg]. cbn [world log]. now destruct (fetch u).
Qed.

(** The loop of [_get_pages_content] skips the addresses that fail and
    keeps the documents of the others, in order. *)
Lemma get_pages_content_loop_skips (urls : list str) :
  (forall u e, In u urls -> fetch u = Raise e -> is_Exception e = true) ->
  forall (contents : list HTML) (st : State unit),
  exists lg,
    _get_pages_content_loop unit (stateless fetch) urls contents st =
    (Ok (contents ++ fetched_documents fetch urls), mkState tt lg).
Proof.
  induction urls as [|u urls IH]; intros Hexc contents st.
  - exists (log st). simpl. unfold ret. rewrite app_nil_r. now destruct st as [[] lg].
  - cbn [_get_pages_content_loop fetched_documents flat_map].
    unfold mbind at 1, try_except_Exception. unfold mbind at 1, logging.
    unfold mbind at 1. rewrite get_url_content_stateless. cbn [world log].
    destruct (fetch u) as [response|e] eqn:Hu.
    + unfold ret at 1.
      destruct (IH (fun u' e' Hin => Hexc u' e' (or_intror Hin))
                   (contents ++ [html response])
                   (mkState tt (log st ++ [InfoCurrentURL u]))) as [lg Hlg].
      exists lg. rewrite Hlg. now rewrite <- app_assoc.
    + rewrite (Hexc u e (or_introl eq_refl) Hu).
      unfold mbind at 1. unfold mbind at 1. unfold ret at 1. cbn [world log].
      destruct (IH (fun u' e' Hin => Hexc u' e' (or_intror Hin)) contents
                   (mkState tt (((log st ++ [InfoCurrentURL u])
                                 ++ [ErrorFailedURL u]) ++ [ErrorTraceback e])))
        as [lg Hlg].
      exists lg. rewrite Hlg. reflexivity.
Qed.

(** The comprehension that is returned raises as soon as one address
    fails. *)
Lemma get_each_url_content_raises (urls : list str) (u : str) (e : exn) :
  In u urls -> fetch u = Raise e ->
  forall st : State unit,
  exists e' st', get_each_url_content unit (stateless fetch) urls st = (Raise e', st').
Proof.
  induction urls as [|u0 urls IH]; intros Hin Hu st; [destruct Hin|].
  cbn [get_each_url_content].
  unfold mbind at 1. rewrite get_url_content_stateless.
  destruct (fetch u0) as [response|e0] eqn:Hu0.
  - destruct Hin as [->|Hin]; [congruence|].
    destruct (IH Hin Hu (mkState tt (log st))) as (e' & st' & Hrest).
    exists e', st'. unfold mbind. now rewrite Hrest.
  - now exists e0, (mkState tt (log st)).
Qed.

(** Whatever the loop did, a failing address makes [_get_pages_content]
    raise. *)
Lemma get_pages_content_raises (urls : list str) (u : str) (e : exn) :
  In u urls -> fetch u = Raise e ->
  forall st : State unit,
  exists e' st', _get_pages_content unit (stateless fetch) urls st = (Raise e', st').
Proof.
  intros Hin Hu st. unfold _get_pages_content, mbind.
  destruct (_get_pages_content_loop unit (stateless fetch) urls [] st)
    as [[contents|e0] st0].
  - apply (get_each_url_content_raises urls u e Hin Hu).
  - now exists e0, st0.
Qed.

End SequentialFetching.

(** C4: the code departs from the claim.  With three addresses of which
    the second fails to fetch, the loop logs the failure, skips the
    address and keeps the two other documents, as the claim says; but
    the value returned comes from getting every address once more, with
    nothing to catch a failure, and the call raises. *)
Theorem get_pages_content_failing_url :
  let urls := _get_all_urls_by_letter (lit "a") 4 in
  let bad := lit "https://tagalog.pinoydictionary.com/list/a/2/" in
  let failure := OtherException "ConnectionError" in
  let logged :=
    [InfoCurrentURL (lit "https://tagalog.pinoydictionary.com/list/a//");
     InfoCurrentURL bad; ErrorFailedURL bad; ErrorTraceback failure;
     InfoCurrentURL (lit "https://tagalog.pinoydictionary.com/list/a/3/")] in
  _get_pages_content_loop unit (get_except bad) urls [] (mkState tt []) =
  (Ok [empty_page; empty_page], mkState tt logged) /\
  _get_pages_content unit (get_except bad) urls (mkState tt []) =
  (Raise failure, mkState tt logged).
Proof. vm_compute. split; reflexivity. Qed.

(** * Further properties of the code *)

(** ** Splitting and trimming *)

(** The index that [find_index] gives is the lowest one. *)
Lemma find_index_lowest (s sub : str) (i : nat) :
  find_index s sub = Some i ->
  forall pre post, s = pre ++ sub ++ post -> (i <= length pre)%nat.
Proof.
  revert i. induction s as [|c s IH]; intros i; simpl.
  - destruct (startswith [] sub); [|discriminate]. intros [= <-] pre post _. lia.
  - destruct (startswith (c :: s) sub) eqn:E.
    + intros [= <-] pre post _. lia.
    + destruct (find_index s sub) as [j|] eqn:F; simpl; [|discriminate].
      intros [= <-] pre post Hs. destruct pre as [|x pre].
      * assert (startswith (c :: s) sub = true)
          by (apply startswith_app; now exists post).
        congruence.
      * injection Hs as _ Hs. simpl. specialize (IH j eq_refl pre post Hs). lia.
Qed.

(** A part of a string without occurrence of [sub] has none either. *)
Lemma find_index_None_infix (s sub a d b : str) :
  find_index s sub = None -> s = a ++ d ++ b -> find_index d sub = None.
Proof.
  intros Hnone Hs. destruct (find_index d sub) as [i|] eqn:F; [|reflexivity].
  destruct (find_index_Some _ _ _ F) as (pre & post & -> & _).
  exfalso. apply (find_index_None _ _ Hnone (a ++ pre) (post ++ b)).
  rewrite Hs. now rewrite <- !app_assoc.
Qed.

Lemma firstn_no_occurrence (s sub : str) (i : nat) :
  sub <> [] -> find_index s sub = Some i -> find_index (firstn i s) sub = None.
Proof.
  intros Hsub F. destruct (find_index (firstn i s) sub) as [j|] eqn:G; [|reflexivity].
  exfalso.
  destruct (find_index_Some _ _ _ G) as (pre & post & Hfirst & _).
  pose proof (find_index_lowest _ _ _ F pre (post ++ skipn i s)) as Hlow.
  assert (s = pre ++ sub ++ post ++ skipn i s) as Hs.
  { rewrite <- (firstn_skipn i s) at 1. rewrite Hfirst. now rewrite <- !app_assoc. }
  specialize (Hlow Hs).
  assert (length (firstn i s) <= i)%nat as Hlen by apply firstn_le_length.
  rewrite Hfirst, !length_app in Hlen. destruct sub; [congruence|]. simpl in Hlen. lia.
Qed.

Lemma join_cons (sep fragment : str) (fragments : list str) :
  fragments <> [] ->
  join sep (fragment :: fragments) = fragment ++ sep ++ join sep fragments.
Proof. destruct fragments; [congruence | reflexivity]. Qed.

Lemma split_list_facts (sep : str) :
  sep <> [] ->
  forall s,
    split_list s sep <> [] /\
    join sep (split_list s sep) = s /\
    Forall (fun fragment => find_index fragment sep = None) (split_list s sep).
Proof.
  intros Hsep s. remember (length s) as n eqn:Hn. revert s Hn.
  induction n as [n IH] using lt_wf_ind. intros s Hn.
  rewrite split_list_unfold by assumption.
  destruct (find_index s sep) as [i|] eqn:F.
  - pose proof (find_index_slices _ _ _ F) as Hs.
    set (rest := skipn (i + length sep) s) in *.
    assert (length rest < n)%nat as Hlt.
    { subst n. rewrite Hs at 1. rewrite !length_app.
      destruct sep; [congruence|]. cbn [length]. lia. }
    destruct (IH _ Hlt rest eq_refl) as (Hne & Hjoin & Hall).
    split; [discriminate|]. split.
    + rewrite join_cons by assumption. rewrite Hjoin. now symmetry.
    + constructor; [now apply firstn_no_occurrence | assumption].
  - split; [discriminate|]. split; [reflexivity|]. now repeat constructor.
Qed.

(** X1.  The fragments of [split] are never none, joined with the
    separator they give the text back, and no fragment holds an
    occurrence of the separator. *)
Theorem split_join (s sep : str) (fragments : list str) :
  split s sep = Ok fragments ->
  fragments <> [] /\
  join sep fragments = s /\
  Forall (fun fragment => find fragment sep = -1) fragments.
Proof.
  unfold split. destruct sep as [|c sep]; [discriminate|]. intros [= <-].
  destruct (split_list_facts (c :: sep) ltac:(discriminate) s) as (Hne & Hjoin & Hall).
  split; [exact Hne|]. split; [exact Hjoin|].
  eapply Forall_impl; [|exact Hall]. intros fragment H. now apply find_minus_one.
Qed.

Lemma split_join_witness :
  split (lit "/list/a/25/") (lit "/") =
  Ok [lit ""; lit "list"; lit "a"; lit "25"; lit ""] /\
  join (lit "/") [lit ""; lit "list"; lit "a"; lit "25"; lit ""] = lit "/list/a/25/".
Proof.
  split; [vm_compute; reflexivity|].
  apply (split_join (lit "/list/a/25/") (lit "/")). vm_compute; reflexivity.
Defined.

Lemma lstrip_head (s : str) (c : ascii) (rest : str) :
  lstrip s = c :: rest -> isspace c = false.
Proof.
  induction s as [|x s IH]; simpl; [discriminate|].
  destruct (isspace x) eqn:E; [assumption|]. intros [= <- _]. exact E.
Qed.

Lemma lstrip_fixed (s : str) :
  (forall c rest, s = c :: rest -> isspace c = false) -> lstrip s = s.
Proof.
  destruct s as [|c s]; [reflexivity|]. intros H. simpl.
  now rewrite (H c s eq_refl).
Qed.

(** A trimmed string neither starts nor ends with whitespace. *)
Lemma strip_ends (s : str) :
  (forall c rest, strip s = c :: rest -> isspace c = false) /\
  (forall c pre, strip s = pre ++ [c] -> isspace c = false).
Proof.
  unfold strip, rstrip.
  set (L := lstrip s). set (R := lstrip (rev L)). split.
  - intros c rest Hc.
    destruct (lstrip_suffix (rev L)) as [a Ha]. fold R in Ha.
    assert (L = rev R ++ rev a) as HL
      by (rewrite <- rev_app_distr, <- Ha; now rewrite rev_involutive).
    rewrite Hc in HL. simpl in HL. unfold L in HL.
    now apply lstrip_head in HL.
  - intros c pre Hc.
    assert (R = c :: rev pre) as HR.
    { rewrite <- (rev_involutive R), Hc, rev_app_distr. reflexivity. }
    unfold R in HR. now apply lstrip_head in HR.
Qed.

(** X2.  The definition text that [_get_definition] returns holds no
    occurrence of the tag at which the block was split, and neither
    starts nor ends with whitespace. *)
Theorem get_definition_clean (definition : option Element) (tag d : str) :
  _get_definition definition tag = Ok d ->
  find d tag = -1 /\
  (forall c rest, d = c :: rest -> isspace c = false) /\
  (forall c pre, d = pre ++ [c] -> isspace c = false).
Proof.
  destruct definition as [e|]; [|discriminate].
  unfold _get_definition, split. cbn [text_of bind].
  destruct tag as [|x tag]; [discriminate|]. cbn [bind].
  destruct (split_last_fragment (x :: tag) ltac:(discriminate) (text e))
    as (fragment & Hlast & Hnone & _).
  rewrite Hlast. cbn [bind]. intros [= <-]. split.
  - apply find_minus_one. destruct (strip_infix fragment) as (a & b & Hinfix).
    exact (find_index_None_infix _ _ _ _ _ Hnone Hinfix).
  - apply strip_ends.
Qed.

Lemma get_definition_clean_witness :
  _get_definition (block "aso n. dog ; n. hound  ") (lit "n.") = Ok (lit "hound") /\
  find (lit "hound") (lit "n.") = -1.
Proof.
  split; [vm_compute; reflexivity|].
  apply (get_definition_clean (block "aso n. dog ; n. hound  ") (lit "n.")).
  vm_compute; reflexivity.
Defined.

(** X3.  [_get_definition] fails only without a block ([AttributeError])
    or with an empty tag ([ValueError]); with a block and a non-empty tag
    it always returns, and when the tag does not occur in the text of the
    block it returns the whole text, trimmed. *)
Theorem get_definition_total (e : Element) (tag : str) :
  _get_definition None tag = Raise AttributeError /\
  _get_definition (Some e) [] = Raise ValueError /\
  (tag <> [] ->
   exists d, _get_definition (Some e) tag = Ok d /\
             (find (text e) tag = -1 -> d = strip (text e))).
Proof.
  split; [reflexivity|]. split; [reflexivity|]. intros Htag.
  destruct (split_last_fragment tag Htag (text e)) as (fragment & Hlast & _ & Hshape).
  exists (strip fragment). split.
  - unfold _get_definition, split. cbn [text_of bind].
    destruct tag; [congruence|]. cbn [bind]. now rewrite Hlast.
  - intros Hnone. apply find_minus_one in Hnone. rewrite Hnone in Hshape.
    now subst fragment.
Qed.

Lemma get_definition_total_witness :
  lit "syn." <> [] /\
  exists d, _get_definition (block "  bahay: house ") (lit "syn.") = Ok d /\
            d = lit "bahay: house".
Proof.
  split; [discriminate|].
  destruct (proj2 (proj2 (get_definition_total
                            (mkElement (lit "  bahay: house ") []) (lit "syn.")))
              ltac:(discriminate)) as (d & Hd & Hwhole).
  exists d. split; [exact Hd|]. rewrite Hwhole; vm_compute; reflexivity.
Defined.

(** ** The tags of a block *)

(** X4.  Without a block the extraction of the tags raises
    [AttributeError]; with a block it returns exactly when some tag of
    the vocabulary occurs in the text, and raises [ValueError]
    otherwise. *)
Theorem get_parts_of_speech_succeeds_iff (e : Element) :
  _get_parts_of_speech None = Raise AttributeError /\
  ((exists tags, _get_parts_of_speech (Some e) = Ok tags) <->
   (exists tag, In tag parts_of_speech /\ find (text e) tag <> -1)) /\
  ((forall tags, _get_parts_of_speech (Some e) <> Ok tags) ->
   _get_parts_of_speech (Some e) = Raise ValueError).
Proof.
  split; [reflexivity|].
  destruct (found_tags parts_of_speech (text e)) as [|[i tag] found] eqn:Efound.
  - pose proof (get_parts_of_speech_none e Efound) as Hnone. split.
    + split.
      * intros [tags Htags]. congruence.
      * intros (tag & Hvoc & Hfind). exfalso.
        apply (some_tag_found _ _ Hvoc Hfind). exact Efound.
    + intros _. exact Hnone.
  - assert (found_tags parts_of_speech (text e) <> []) as Hfound
      by (rewrite Efound; discriminate).
    pose proof (scan_tags_nonempty _ Hfound) as Hne.
    destruct (get_parts_of_speech_scan e Hne) as (m & nearest & _ & _ & _ & Hget).
    split.
    + split.
      * intros _. exists tag.
        assert (In (i, tag) (found_tags parts_of_speech (text e))) as Hin
          by (rewrite Efound; now left).
        apply found_tags_In in Hin as (Hvoc & Hfind & Hnot).
        split; [exact Hvoc | congruence].
      * intros _. eexists. exact Hget.
    + intros Hnot. exfalso. exact (Hnot _ Hget).
Qed.

(** X5.  Every tag returned occurs in the text; the first occurrences of
    the tags returned are at pairwise distinct indices; and the first
    occurrence of the last tag is strictly after those of all the
    others. *)
Theorem parts_of_speech_indices (e : Element) (tags : list str) :
  _get_parts_of_speech (Some e) = Ok tags ->
  exists leading nearest,
    tags = leading ++ [nearest] /\
    Forall (fun tag => 0 <= find (text e) tag < find (text e) nearest) leading /\
    0 <= find (text e) nearest /\
    NoDup (map (find (text e)) tags).
Proof.
  intros H.
  destruct (found_tags parts_of_speech (text e)) as [|p found] eqn:Efound.
  { rewrite (get_parts_of_speech_none _ Efound) in H. discriminate. }
  assert (keys (scan_tags parts_of_speech (text e)) <> []) as Hne
    by (apply scan_tags_nonempty; rewrite Efound; discriminate).
  destruct (get_parts_of_speech_scan e Hne) as (m & nearest & _ & Hall & Hin & Hget).
  rewrite Hget in H. injection H as <-.
  set (d := scan_tags parts_of_speech (text e)) in *.
  set (rest := filter (fun kv => negb (fst kv =? m)) d).
  pose proof (scan_entry _ _ _ Hin) as (_ & Hm & Hmnot).
  assert (forall k v, In (k, v) rest -> find (text e) v = k /\ 0 <= k < m) as Hrest.
  { intros k v Hkv. apply filter_In in Hkv as [Hkv Hk]. simpl in Hk.
    apply negb_true_iff, Z.eqb_neq in Hk.
    pose proof (scan_entry _ _ _ Hkv) as (_ & Hfind & Hnot).
    rewrite Forall_forall in Hall.
    assert (k <= m) by (apply Hall; change k with (fst (k, v)); now apply in_map).
    destruct (find_nonneg (text e) v); split; try assumption; lia. }
  assert (map (find (text e)) (map snd rest) = map fst rest) as Hmap.
  { rewrite map_map. apply map_ext_in. intros [k v] Hkv. simpl.
    now apply Hrest in Hkv. }
  exists (map snd rest), nearest. split; [reflexivity|]. split; [|split].
  - apply Forall_forall. intros tag Htag.
    apply in_map_iff in Htag as ([k v] & <- & Hkv). simpl.
    apply Hrest in Hkv as [-> Hk]. lia.
  - destruct (find_nonneg (text e) nearest); lia.
  - rewrite map_app, Hmap. cbn [map]. apply NoDup_app.
    + unfold rest. rewrite map_fst_filter_key. apply NoDup_filter, scan_tags_nodup.
    + repeat constructor. simpl. tauto.
    + intros k Hk [<-|[]]. apply in_map_iff in Hk as ([k' v] & Hk' & Hkv).
      simpl in Hk'. subst k'. apply Hrest in Hkv. lia.
Qed.

Lemma parts_of_speech_indices_witness :
  _get_parts_of_speech (block "tahanan n. bahay") = Ok [lit "n"; lit "n."] /\
  exists leading nearest,
    [lit "n"; lit "n."] = leading ++ [nearest] /\
    NoDup (map (find (lit "tahanan n. bahay")) [lit "n"; lit "n."]).
Proof.
  assert (_get_parts_of_speech (block "tahanan n. bahay") = Ok [lit "n"; lit "n."])
    as H by (vm_compute; reflexivity).
  split; [exact H|].
  destruct (parts_of_speech_indices (mkElement (lit "tahanan n. bahay") []) _ H)
    as (leading & nearest & Htags & _ & _ & Hnodup).
  exists leading, nearest. split; [exact Htags | exact Hnodup].
Defined.

(** ** Integers and their decimal writing *)

Lemma is_digit_not_space (c : ascii) : is_digit c = true -> int_space c = false.
Proof. destruct c as [[] [] [] [] [] [] [] []]; vm_compute; congruence. Qed.

Lemma is_digit_not_sign (c : ascii) :
  is_digit c = true ->
  Ascii.eqb c "-"%char = false /\ Ascii.eqb c "+"%char = false /\
  Ascii.eqb "/"%char c = false.
Proof. destruct c as [[] [] [] [] [] [] [] []]; vm_compute; intuition congruence. Qed.

Lemma string_of_uint_digits (d : Decimal.uint) :
  Forall (fun c => is_digit c = true)
         (list_ascii_of_string (NilEmpty.string_of_uint d)).
Proof. induction d; simpl; constructor; trivial. Qed.

Lemma int_digits_string_of_uint (d : Decimal.uint) :
  forall acc after_digit,
    d <> Decimal.Nil \/ after_digit = true ->
    int_digits (list_ascii_of_string (NilEmpty.string_of_uint d)) acc after_digit
    = Some (uint_value d acc).
Proof.
  induction d; intros acc after_digit H;
    try (cbn [NilEmpty.string_of_uint list_ascii_of_string int_digits uint_value];
         change (is_digit _) with true; cbv iota;
         rewrite IHd by (now right); reflexivity).
  destruct H as [H| ->]; [congruence | reflexivity].
Qed.

Lemma uint_value_pos (d : Decimal.uint) :
  forall acc : positive, uint_value d (Z.pos acc) = Z.pos (Pos.of_uint_acc d acc).
Proof.
  induction d; intros acc; cbn [uint_value Pos.of_uint_acc]; try reflexivity;
    rewrite <- IHd; f_equal; lia.
Qed.

Lemma uint_value_zero (d : Decimal.uint) :
  uint_value d 0 = Z.of_N (Pos.of_uint d).
Proof.
  induction d; cbn [uint_value Pos.of_uint]; try reflexivity;
    simpl (10 * 0 + _); try exact IHd; apply uint_value_pos.
Qed.

Lemma int_strip_no_space (s : str) :
  Forall (fun c => int_space c = false) s -> int_strip s = s.
Proof.
  intros H. unfold int_strip.
  assert (forall l, Forall (fun c => int_space c = false) l -> int_lskip l = l) as Hl.
  { intros l Hall. destruct l as [|c l]; [reflexivity|]. simpl.
    inversion Hall as [|? ? Hc _]; subst. now rewrite Hc. }
  rewrite (Hl s H), Hl, rev_involutive; [reflexivity|].
  now apply Forall_rev.
Qed.

Lemma find_index_absent_char (s : str) (c : ascii) :
  Forall (fun x => Ascii.eqb c x = false) s -> find_index s [c] = None.
Proof.
  induction 1 as [|x s Hx _ IH]; simpl; [reflexivity|].
  now rewrite Hx, IH.
Qed.

(** The decimal writing of an integer has no "/" and reads back as the
    integer. *)
Lemma py_int_str_of_int (n : Z) :
  py_int (str_of_int n) = Ok n /\ find (str_of_int n) (lit "/") = -1.
Proof.
  unfold str_of_int, lit. destruct n as [|p|p]; [split; reflexivity | |].
  - cbn [Z.to_int NilZero.string_of_int].
    pose proof (Unsigned.to_uint_nonnil p) as Hnil.
    assert (NilZero.string_of_uint (Pos.to_uint p)
            = NilEmpty.string_of_uint (Pos.to_uint p)) as ->
      by (destruct (Pos.to_uint p); congruence || reflexivity).
    pose proof (string_of_uint_digits (Pos.to_uint p)) as Hdigits.
    pose proof (int_digits_string_of_uint (Pos.to_uint p) 0 false (or_introl Hnil))
      as Hvalue.
    rewrite uint_value_zero, DecimalPos.Unsigned.of_to in Hvalue.
    set (digits := list_ascii_of_string (NilEmpty.string_of_uint (Pos.to_uint p))) in *.
    split.
    + unfold py_int. rewrite int_strip_no_space
        by (eapply Forall_impl; [|exact Hdigits]; apply is_digit_not_space).
      destruct digits as [|c ds]; [discriminate|].
      inversion Hdigits as [|? ? Hc _]; subst.
      destruct (is_digit_not_sign c Hc) as (-> & -> & _).
      now rewrite Hvalue.
    + apply find_minus_one. change (lit "/") with ["/"%char].
      apply find_index_absent_char.
      eapply Forall_impl; [|exact Hdigits]. intros c Hc.
      now destruct (is_digit_not_sign c Hc) as (_ & _ & ->).
  - cbn [Z.to_int NilZero.string_of_int].
    pose proof (Unsigned.to_uint_nonnil p) as Hnil.
    assert (NilZero.string_of_uint (Pos.to_uint p)
            = NilEmpty.string_of_uint (Pos.to_uint p)) as ->
      by (destruct (Pos.to_uint p); congruence || reflexivity).
    pose proof (string_of_uint_digits (Pos.to_uint p)) as Hdigits.
    pose proof (int_digits_string_of_uint (Pos.to_uint p) 0 false (or_introl Hnil))
      as Hvalue.
    rewrite uint_value_zero, DecimalPos.Unsigned.of_to in Hvalue.
    cbn [list_ascii_of_string].
    set (digits := list_ascii_of_string (NilEmpty.string_of_uint (Pos.to_uint p))) in *.
    split.
    + unfold py_int. rewrite int_strip_no_space.
      * change (Ascii.eqb "-" "-") with true. cbv iota. now rewrite Hvalue.
      * constructor; [reflexivity|].
        eapply Forall_impl; [|exact Hdigits]. apply is_digit_not_space.
    + apply find_minus_one. change (lit "/") with ["/"%char].
      apply find_index_absent_char. constructor; [reflexivity|].
      eapply Forall_impl; [|exact Hdigits]. intros c Hc.
      now destruct (is_digit_not_sign c Hc) as (_ & _ & ->).
Qed.

(** ** Pagination and enumeration together *)

Lemma attr_Raise (e : Element) (k : str) (err : exn) :
  attr e k = Raise err -> err = KeyError.
Proof. unfold attr. destruct (getitem str_eqb (attrs e) k); congruence. Qed.

Lemma second_last_item_Raise {A : Type} (l : list A) (err : exn) :
  second_last_item l = Raise err -> err = IndexError.
Proof.
  unfold second_last_item. destruct (rev l) as [|x [|y r]]; congruence.
Qed.

Lemma py_int_Raise (s : str) (err : exn) : py_int s = Raise err -> err = ValueError.
Proof.
  unfold py_int.
  destruct (match int_strip s with
            | [] => None
            | c :: ds =>
                if Ascii.eqb c "-"%char then option_map Z.opp (int_digits ds 0 false)
                else if Ascii.eqb c "+"%char then int_digits ds 0 false
                else int_digits (int_strip s) 0 false
            end); congruence.
Qed.

(** [int] skips a tab or the code point 160 around the digits, but not
    the separator 28. *)
Example py_int_whitespace :
  py_int [ascii_of_nat 9; "5"%char; ascii_of_nat 160] = Ok 5 /\
  py_int [ascii_of_nat 28; "5"%char] = Raise ValueError.
Proof. vm_compute. split; reflexivity. Qed.

(** X6.  The exclusive last page is 2 exactly when read without anchor,
    and otherwise one more than the integer read from the second to last
    component of the link target.  The only errors are [KeyError],
    [IndexError] and [ValueError], all with an anchor present;
    [AttributeError] never escapes. *)
Theorem scrape_last_page_outcomes (response : HTML) :
  match scrape_last_page response with
  | Ok n =>
      (last_anchor response = None /\ n = 2) \/
      (exists anchor href segment k,
         last_anchor response = Some anchor /\
         attr anchor (lit "href") = Ok href /\
         second_last_item (split_list href (lit "/")) = Ok segment /\
         py_int segment = Ok k /\ n = k + 1)
  | Raise err =>
      last_anchor response <> None /\
      (err = KeyError \/ err = IndexError \/ err = ValueError)
  end.
Proof.
  unfold scrape_last_page. destruct (last_anchor response) as [anchor|].
  - cbn [attrs_of bind].
    destruct (attr anchor (lit "href")) as [href|err] eqn:Hhref.
    + cbn [bind]. change (split href (lit "/")) with (Ok (split_list href (lit "/"))).
      cbn [bind].
      destruct (second_last_item (split_list href (lit "/"))) as [segment|err] eqn:Hseg.
      * cbn [bind]. destruct (py_int segment) as [k|err] eqn:Hint.
        -- cbn [bind]. right. now exists anchor, href, segment, k.
        -- cbn [bind]. apply py_int_Raise in Hint. subst err.
           split; [discriminate | tauto].
      * cbn [bind]. apply second_last_item_Raise in Hseg. subst err.
        split; [discriminate | tauto].
    + cbn [bind]. apply attr_Raise in Hhref. subst err.
      split; [discriminate | tauto].
  - left. now split.
Qed.

Lemma scrape_last_page_segment (response : HTML) (anchor : Element)
  (pre segment : str) (k : Z) :
  last_anchor response = Some anchor ->
  attr anchor (lit "href") = Ok (pre ++ lit "/" ++ segment ++ lit "/") ->
  find segment (lit "/") = -1 ->
  py_int segment = Ok k ->
  scrape_last_page response = Ok (k + 1).
Proof.
  intros Hanchor Hhref Hseg Hint. unfold scrape_last_page. rewrite Hanchor.
  cbn [attrs_of bind]. rewrite Hhref. cbn [bind].
  change (split ?h (lit "/")) with (Ok (split_list h (lit "/"))).
  cbn [bind]. rewrite (trailing_segment pre segment Hseg). cbn [bind].
  now rewrite Hint.
Qed.

Lemma range2_succ (n : Z) : 1 <= n -> range2 1 (n + 1) = range2 1 n ++ [n].
Proof.
  intros Hn. unfold range2, range_length. cbn [Z.ltb Z.compare].
  rewrite !Z.div_1_r.
  replace (Z.to_nat (n + 1 - 1 + 1 - 1)) with (S (Z.to_nat (n - 1 + 1 - 1))) by lia.
  rewrite seq_S, map_app. cbn [map plus]. do 2 f_equal. lia.
Qed.

Lemma range2_empty (start stop : Z) : stop <= start -> range2 start stop = [].
Proof.
  intros H. apply length_zero_iff_nil. rewrite range2_length. lia.
Qed.

(** X7.  Without "Last" anchor exactly one address is enumerated for the
    letter, the one with the empty page segment.  With an anchor whose
    link target ends in the segment [k] followed by "/", [k] addresses
    are enumerated when [k] is positive and none at all otherwise: the
    letter is then passed over without any page being fetched. *)
Theorem discovered_urls (response : HTML) (letter : str) :
  (last_anchor response = None ->
   exists n, scrape_last_page response = Ok n /\
             _get_all_urls_by_letter letter n =
             [url ++ lit "/list/" ++ letter ++ lit "//"]) /\
  (forall anchor pre segment k,
     last_anchor response = Some anchor ->
     attr anchor (lit "href") = Ok (pre ++ lit "/" ++ segment ++ lit "/") ->
     find segment (lit "/") = -1 ->
     py_int segment = Ok k ->
     exists n, scrape_last_page response = Ok n /\
               length (_get_all_urls_by_letter letter n) = Z.to_nat k /\
               (k <= 0 -> _get_all_urls_by_letter letter n = [])).
Proof.
  split.
  - intros Hnone. exists 2. split; [|reflexivity].
    unfold scrape_last_page. now rewrite Hnone.
  - intros anchor pre segment k Hanchor Hhref Hseg Hint. exists (k + 1).
    split; [exact (scrape_last_page_segment _ _ _ _ _ Hanchor Hhref Hseg Hint)|].
    unfold _get_all_urls_by_letter. split.
    + rewrite length_map, range2_length. f_equal. lia.
    + intros Hk. rewrite range2_empty by lia. reflexivity.
Qed.

Lemma discovered_urls_witness :
  (exists n, scrape_last_page (mkHTML None []) = Ok n /\
             _get_all_urls_by_letter (lit "x") n =
             [lit "https://tagalog.pinoydictionary.com/list/x//"]) /\
  (exists n, scrape_last_page (page_with_last "/list/x/0/") = Ok n /\
             _get_all_urls_by_letter (lit "x") n = []).
Proof.
  split.
  - apply (proj1 (discovered_urls (mkHTML None []) (lit "x"))). reflexivity.
  - destruct (proj2 (discovered_urls (page_with_last "/list/x/0/") (lit "x"))
                (mkElement (lit "Last") [(lit "href", lit "/list/x/0/")])
                (lit "/list/x") (lit "0") 0
                eq_refl eq_refl eq_refl eq_refl) as (n & Hn & _ & Hnil).
    exists n. split; [exact Hn|]. apply Hnil. lia.
Defined.

Lemma get_all_urls_by_letter_snoc (letter : str) (n : Z) :
  2 <= n ->
  _get_all_urls_by_letter letter (n + 1) =
  _get_all_urls_by_letter letter n ++
  [url ++ lit "/list/" ++ letter ++ lit "/" ++ str_of_int n ++ lit "/"].
Proof.
  intros Hn. unfold _get_all_urls_by_letter.
  rewrite range2_succ by lia. rewrite map_app. cbn [map]. unfold page_url at 2.
  replace (n =? 1) with false by (symmetry; apply Z.eqb_neq; lia).
  reflexivity.
Qed.

(** X8.  Raising the bound by one adds one address at the end, that of
    the page of the old bound, and leaves the others as they were. *)
Theorem get_all_urls_by_letter_extends (letter : str) (n : Z) :
  2 <= n ->
  _get_all_urls_by_letter letter (n + 1) =
  _get_all_urls_by_letter letter n ++
  [url ++ lit "/list/" ++ letter ++ lit "/" ++ str_of_int n ++ lit "/"].
Proof. apply get_all_urls_by_letter_snoc. Qed.

Lemma get_all_urls_by_letter_extends_witness :
  2 <= 3 /\
  _get_all_urls_by_letter (lit "a") (3 + 1) =
  _get_all_urls_by_letter (lit "a") 3 ++
  [lit "https://tagalog.pinoydictionary.com/list/a/3/"].
Proof.
  split; [lia|]. apply (get_all_urls_by_letter_extends (lit "a") 3). lia.
Defined.

(** X9.  Enumeration and discovery agree from the third page on: for a
    bound [n >= 3], the last address enumerated, taken as the link
    target of the "Last" anchor, gives [n] back.  With the bound 2 the
    only address has an empty page segment, and reading it raises
    [ValueError]. *)
Theorem enumerate_then_discover (letter : str) (n : Z) :
  (3 <= n ->
   exists last_url,
     last_item (_get_all_urls_by_letter letter n) = Ok last_url /\
     scrape_last_page (page_linking_last last_url) = Ok n) /\
  (exists only_url,
     _get_all_urls_by_letter letter 2 = [only_url] /\
     scrape_last_page (page_linking_last only_url) = Raise ValueError).
Proof.
  split.
  - intros Hn.
    exists (url ++ lit "/list/" ++ letter ++ lit "/" ++ str_of_int (n - 1) ++ lit "/").
    split.
    + replace n with (n - 1 + 1) at 1 by lia.
      rewrite get_all_urls_by_letter_snoc by lia. apply last_item_snoc.
    + destruct (py_int_str_of_int (n - 1)) as [Hint Hfind].
      replace n with (n - 1 + 1) at 2 by lia.
      apply (scrape_last_page_segment _
               (mkElement (lit "Last")
                  [(lit "href",
                    url ++ lit "/list/" ++ letter ++ lit "/"
                        ++ str_of_int (n - 1) ++ lit "/")])
               (url ++ lit "/list/" ++ letter) (str_of_int (n - 1)) (n - 1)).
      * reflexivity.
      * unfold attr. cbn [attrs getitem].
        change (str_eqb (lit "href") (lit "href")) with true. cbv iota.
        now rewrite <- !app_assoc.
      * exact Hfind.
      * exact Hint.
  - exists (url ++ lit "/list/" ++ letter ++ lit "//"). split; [reflexivity|].
    unfold scrape_last_page, page_linking_last. cbn [last_anchor attrs_of bind].
    unfold attr. cbn [attrs getitem].
    change (str_eqb (lit "href") (lit "href")) with true. cbv iota. cbn [bind].
    change (split ?h (lit "/")) with (Ok (split_list h (lit "/"))). cbn [bind].
    replace (url ++ lit "/list/" ++ letter ++ lit "//")
      with ((url ++ lit "/list/" ++ letter) ++ lit "/" ++ [] ++ lit "/")
      by (now rewrite <- !app_assoc).
    rewrite (trailing_segment (url ++ lit "/list/" ++ letter) [] eq_refl).
    reflexivity.
Qed.

Lemma enumerate_then_discover_witness :
  3 <= 26 /\
  exists last_url,
    last_item (_get_all_urls_by_letter (lit "a") 26) = Ok last_url /\
    scrape_last_page (page_linking_last last_url) = Ok 26.
Proof.
  split; [lia|].
  apply (proj1 (enumerate_then_discover (lit "a") 26)). lia.
Defined.

(** ** Chunks and the batched mode *)

Lemma chunk_list_zero {A : Type} (l : list A) : chunk_list l 0 = Raise ValueError.
Proof. reflexivity. Qed.

Lemma chunk_list_negative {A : Type} (l : list A) (n : Z) :
  n < 0 -> chunk_list l n = Ok [].
Proof.
  intros Hn. unfold chunk_list, range, range_length.
  replace (n =? 0) with false by (symmetry; apply Z.eqb_neq; lia).
  replace (0 <? n) with false by (symmetry; apply Z.ltb_ge; lia).
  set (len := Z.of_nat (length l)).
  assert ((0 - len - n - 1) / - n <= 0) as Hq.
  { assert ((0 - len - n - 1) / - n < 1); [|lia].
    apply Z.div_lt_upper_bound; lia. }
  replace (Z.to_nat ((0 - len - n - 1) / - n)) with 0%nat by lia.
  reflexivity.
Qed.

Lemma chunk_list_nil {A : Type} (n : Z) : n <> 0 -> chunk_list (@nil A) n = Ok [].
Proof.
  intros Hn. destruct (Z_lt_le_dec n 0) as [Hneg|Hpos].
  - now apply chunk_list_negative.
  - rewrite chunk_list_pos by lia. cbn [length Z.of_nat].
    replace ((0 + n - 1) / n) with 0 by (symmetry; apply Z.div_small; lia).
    reflexivity.
Qed.

(** X10.  In the batched mode a batch size of zero raises [ValueError]
    and a negative batch size returns no document at all, in both cases
    without any call of the transport and without a log record; so does
    an empty list of addresses with any batch size but zero. *)
Theorem get_pages_content_async_edges (World : Type)
  (session_run : list str -> World -> result (list Response) * World)
  (urls : list str) (max_urls : Z) (st : State World) :
  _get_pages_content_async World session_run urls 0 st = (Raise ValueError, st) /\
  (max_urls < 0 ->
   _get_pages_content_async World session_run urls max_urls st = (Ok [], st)) /\
  (max_urls <> 0 ->
   _get_pages_content_async World session_run [] max_urls st = (Ok [], st)).
Proof.
  unfold _get_pages_content_async, mbind, lift. split; [|split].
  - reflexivity.
  - intros Hneg. now rewrite chunk_list_negative.
  - intros Hne. now rewrite chunk_list_nil.
Qed.

Lemma get_pages_content_async_edges_witness :
  -1 < 0 /\
  _get_pages_content_async unit run_each
    (_get_all_urls_by_letter (lit "a") 4) (-1) (mkState tt []) =
  (Ok [], mkState tt []).
Proof.
  split; [lia|].
  apply (proj1 (proj2 (get_pages_content_async_edges unit run_each
                         (_get_all_urls_by_letter (lit "a") 4) (-1)
                         (mkState tt [])))).
  lia.
Defined.

(** X11.  With a positive size [n], [chunk_list] gives the number of
    chunks that the length of the list, divided by [n] and rounded up,
    tells; the chunk at position [i] holds the [n] elements that follow
    the first [i * n], or what is left of them; and every chunk but the
    last holds exactly [n] elements. *)
Theorem chunk_list_sizes {A : Type} (l : list A) (n : Z) (chunks : list (list A)) :
  0 < n ->
  chunk_list l n = Ok chunks ->
  length chunks = Z.to_nat ((Z.of_nat (length l) + n - 1) / n) /\
  forall i, (i < length chunks)%nat ->
    nth_error chunks i = Some (firstn (Z.to_nat n) (skipn (i * Z.to_nat n) l)) /\
    ((S i < length chunks)%nat ->
     length (firstn (Z.to_nat n) (skipn (i * Z.to_nat n) l)) = Z.to_nat n).
Proof.
  intros Hn. rewrite chunk_list_pos by assumption. intros [= <-].
  set (len := Z.of_nat (length l)).
  pose proof (chunk_count_covers len n ltac:(lia) Hn) as Hcount. cbv zeta in Hcount.
  rewrite length_map, length_seq. split; [reflexivity|].
  intros i Hi. split.
  - rewrite nth_error_map, nth_error_seq.
    replace (i <? Z.to_nat ((len + n - 1) / n))%nat with true
      by (symmetry; now apply Nat.ltb_lt).
    reflexivity.
  - intros HSi. rewrite length_firstn, length_skipn. nia.
Qed.

Lemma chunk_list_sizes_witness :
  0 < 3 /\
  chunk_list [1; 2; 3; 4; 5; 6; 7] 3 = Ok [[1; 2; 3]; [4; 5; 6]; [7]] /\
  length [[1; 2; 3]; [4; 5; 6]; [7]] = 3%nat.
Proof.
  split; [lia|]. split; [vm_compute; reflexivity|].
  apply (proj1 (chunk_list_sizes [1; 2; 3; 4; 5; 6; 7] 3
                  [[1; 2; 3]; [4; 5; 6]; [7]] eq_refl eq_refl)).
Defined.

Lemma chunk_list_single {A : Type} (l : list A) (n : Z) :
  l <> [] -> Z.of_nat (length l) <= n -> chunk_list l n = Ok [l].
Proof.
  intros Hl Hn.
  assert (0 < Z.of_nat (length l)) as Hlen by (destruct l; [congruence | simpl; lia]).
  rewrite chunk_list_pos by lia.
  replace ((Z.of_nat (length l) + n - 1) / n) with 1.
  - change (Z.to_nat 1) with 1%nat. cbn [seq map]. rewrite Nat.mul_0_l.
    cbn [skipn]. rewrite firstn_all2 by lia. reflexivity.
  - apply Z.div_unique with (r := Z.of_nat (length l) - 1); lia.
Qed.

(** X12.  With a batch size that is at least the number of addresses,
    the batched mode makes a single run of the transport, on all the
    addresses, and returns the documents of its results or raises its
    error. *)
Theorem get_pages_content_async_single_run (World : Type)
  (session_run : list str -> World -> result (list Response) * World)
  (urls : list str) (max_urls : Z) (st : State World) :
  urls <> [] -> Z.of_nat (length urls) <= max_urls ->
  _get_pages_content_async World session_run urls max_urls st =
  match session_run urls (world st) with
  | (Ok results, w) => (Ok (map html results), mkState w (log st))
  | (Raise err, w) => (Raise err, mkState w (log st))
  end.
Proof.
  intros Hne Hlen. unfold _get_pages_content_async, mbind, lift.
  rewrite (chunk_list_single urls max_urls Hne Hlen).
  cbn [run_chunks]. unfold mbind, on_world, ret.
  destruct (session_run urls (world st)) as [[results|err] w]; reflexivity.
Qed.

Lemma get_pages_content_async_single_run_witness :
  let urls := _get_all_urls_by_letter (lit "a") 4 in
  urls <> [] /\ Z.of_nat (length urls) <= 500 /\
  _get_pages_content_async unit run_each urls 500 (mkState tt []) =
  (Ok [empty_page; empty_page; empty_page], mkState tt []).
Proof.
  intros urls.
  assert (urls <> []) as Hne by (vm_compute; discriminate).
  assert (Z.of_nat (length urls) <= 500) as Hlen by (vm_compute; discriminate).
  split; [exact Hne|]. split; [exact Hlen|].
  rewrite (get_pages_content_async_single_run unit run_each urls 500
             (mkState tt []) Hne Hlen).
  vm_compute. reflexivity.
Defined.

Lemma run_chunks_log (World : Type)
  (session_run : list str -> World -> result (list Response) * World)
  (chunks : list (list str)) :
  forall (all_results : list HTML) (st : State World),
    log (snd (run_chunks World session_run chunks all_results st)) = log st.
Proof.
  induction chunks as [|chunk chunks IH]; intros all_results st; [reflexivity|].
  cbn [run_chunks]. unfold mbind at 1, on_world.
  destruct (session_run chunk (world st)) as [[rs|err] w]; [|reflexivity].
  now rewrite IH.
Qed.

(** X13.  The batched mode writes nothing to the log, whatever the batch
    size and whether it returns or raises. *)
Theorem get_pages_content_async_silent (World : Type)
  (session_run : list str -> World -> result (list Response) * World)
  (urls : list str) (max_urls : Z) (st : State World) :
  log (snd (_get_pages_content_async World session_run urls max_urls st)) = log st.
Proof.
  unfold _get_pages_content_async, mbind, lift.
  destruct (chunk_list urls max_urls) as [chunks|err]; [|reflexivity].
  apply run_chunks_log.
Qed.

(** ** The sequential mode *)

Section Recording.

Variable answer : str -> result Response.

Lemma get_url_content_recording (u : str) (st : State (list str)) :
  _get_url_content (list str) (recording answer) u st =
  (match answer u with
   | Ok response => Ok (html response)
   | Raise e => Raise e
   end, mkState (world st ++ [u]) (log st)).
Proof.
  unfold _get_url_content, mbind, on_world, recording, ret.
  now destruct (answer u).
Qed.

(** The loop asks for every address once, whatever the answers. *)
Lemma get_pages_content_loop_recording (urls : list str) :
  (forall u e, In u urls -> answer u = Raise e -> is_Exception e = true) ->
  forall (contents : list HTML) (st : State (list str)),
    _get_pages_content_loop (list str) (recording answer) urls contents st =
    (Ok (contents ++ fetched_documents answer urls),
     mkState (world st ++ urls) (log st ++ loop_log answer urls)).
Proof.
  induction urls as [|u urls IH]; intros Hexc contents st.
  - simpl. unfold ret. rewrite !app_nil_r. now destruct st.
  - cbn [_get_pages_content_loop fetched_documents loop_log flat_map].
    unfold mbind at 1, try_except_Exception. unfold mbind at 1, logging.
    unfold mbind at 1. rewrite get_url_content_recording. cbn [world log].
    assert (forall u' e', In u' urls -> answer u' = Raise e' -> is_Exception e' = true)
      as Hrest by (intros u' e' Hin; apply Hexc; now right).
    destruct (answer u) as [response|e] eqn:Hu.
    + unfold ret at 1. rewrite (IH Hrest). cbn [world log].
      now rewrite <- !app_assoc.
    + rewrite (Hexc u e (or_introl eq_refl) Hu).
      unfold mbind at 1. unfold mbind at 1. unfold ret at 1. cbn [world log].
      rewrite (IH Hrest). cbn [world log]. now rewrite <- !app_assoc.
Qed.

(** The comprehension asks for the addresses in order, up to the first
    that fails. *)
Lemma get_each_url_content_recording (urls : list str) :
  forall st : State (list str),
    (forall u, In u urls -> exists response, answer u = Ok response) ->
    get_each_url_content (list str) (recording answer) urls st =
    (Ok (fetched_documents answer urls), mkState (world st ++ urls) (log st)).
Proof.
  induction urls as [|u urls IH]; intros st Hall.
  - simpl. unfold ret. rewrite app_nil_r. now destruct st.
  - cbn [get_each_url_content fetched_documents flat_map].
    unfold mbind at 1. rewrite get_url_content_recording.
    destruct (Hall u (or_introl eq_refl)) as [response Hu]. rewrite Hu.
    unfold mbind at 1. rewrite IH by (intros u' Hin; apply Hall; now right).
    unfold ret. cbn [world log app]. now rewrite <- app_assoc.
Qed.

Lemma get_each_url_content_first_failure (pre post : list str) (u : str) (e : exn) :
  forall st : State (list str),
    (forall u', In u' pre -> exists response, answer u' = Ok response) ->
    answer u = Raise e ->
    get_each_url_content (list str) (recording answer) (pre ++ u :: post) st =
    (Raise e, mkState (world st ++ pre ++ [u]) (log st)).
Proof.
  induction pre as [|u0 pre IH]; intros st Hpre Hu.
  - cbn [app get_each_url_content]. unfold mbind at 1.
    rewrite get_url_content_recording, Hu. reflexivity.
  - cbn [app get_each_url_content]. unfold mbind at 1.
    rewrite get_url_content_recording.
    destruct (Hpre u0 (or_introl eq_refl)) as [response Hu0]. rewrite Hu0.
    unfold mbind at 1.
    rewrite IH by (try assumption; intros u' Hin; apply Hpre; now right).
    cbn [world log]. now rewrite <- app_assoc.
Qed.

End Recording.

(** X14.  When every address can be fetched, the sequential mode asks
    the transport for every address twice: once each, in order, in the
    loop, and once each, in order, for the list that it returns; it logs
    one line per address and returns the documents in the order of the
    addresses. *)
Theorem get_pages_content_fetches_twice (answer : str -> result Response)
  (urls : list str) (st : State (list str)) :
  (forall u, In u urls -> exists response, answer u = Ok response) ->
  _get_pages_content (list str) (recording answer) urls st =
  (Ok (fetched_documents answer urls),
   mkState (world st ++ urls ++ urls) (log st ++ map InfoCurrentURL urls)).
Proof.
  intros Hall. unfold _get_pages_content, mbind.
  rewrite get_pages_content_loop_recording.
  - rewrite get_each_url_content_recording by assumption. cbn [world log].
    rewrite <- app_assoc. do 3 f_equal.
    unfold loop_log. clear st. induction urls as [|u urls IH]; [reflexivity|].
    cbn [flat_map map]. destruct (Hall u (or_introl eq_refl)) as [response ->].
    cbn [app]. f_equal. apply IH. intros u' Hin. apply Hall. now right.
  - intros u e Hin Hu. destruct (Hall u Hin) as [response Hok]. congruence.
Qed.

Lemma get_pages_content_fetches_twice_witness :
  let answer := fun u => Ok (mkResponse u empty_page) in
  let urls := _get_all_urls_by_letter (lit "a") 3 in
  (forall u, In u urls -> exists response, answer u = Ok response) /\
  world (snd (_get_pages_content (list str) (recording answer) urls (mkState [] [])))
  = urls ++ urls.
Proof.
  intros answer urls.
  assert (forall u, In u urls -> exists response, answer u = Ok response) as Hall
    by (intros u _; now exists (mkResponse u empty_page)).
  split; [exact Hall|].
  rewrite (get_pages_content_fetches_twice answer urls (mkState [] []) Hall).
  reflexivity.
Defined.

(** X15.  When some address cannot be fetched (with an error that is an
    [Exception]), the sequential mode still asks for every address in
    the loop, logging the failures, then asks again for the addresses up
    to the first that fails, and raises the error of that one. *)
Theorem get_pages_content_first_failure (answer : str -> result Response)
  (pre post : list str) (u : str) (e : exn) (st : State (list str)) :
  (forall u' e', In u' (pre ++ u :: post) -> answer u' = Raise e' ->
                 is_Exception e' = true) ->
  (forall u', In u' pre -> exists response, answer u' = Ok response) ->
  answer u = Raise e ->
  _get_pages_content (list str) (recording answer) (pre ++ u :: post) st =
  (Raise e,
   mkState (world st ++ (pre ++ u :: post) ++ pre ++ [u])
           (log st ++ loop_log answer (pre ++ u :: post))).
Proof.
  intros Hexc Hpre Hu. unfold _get_pages_content, mbind.
  rewrite get_pages_content_loop_recording by assumption.
  rewrite (get_each_url_content_first_failure answer pre post u e) by assumption.
  cbn [world log]. now rewrite <- !app_assoc.
Qed.

Lemma get_pages_content_first_failure_witness :
  let bad := lit "https://tagalog.pinoydictionary.com/list/a/2/" in
  let answer := fun u => fst (get_except bad u tt) in
  let pre := [lit "https://tagalog.pinoydictionary.com/list/a//"] in
  let post := [lit "https://tagalog.pinoydictionary.com/list/a/3/"] in
  answer bad = Raise (OtherException "ConnectionError") /\
  fst (_get_pages_content (list str) (recording answer) (pre ++ bad :: post)
         (mkState [] []))
  = Raise (OtherException "ConnectionError").
Proof.
  intros bad answer pre post.
  assert (answer bad = Raise (OtherException "ConnectionError")) as Hbad
    by (vm_compute; reflexivity).
  split; [exact Hbad|].
  rewrite (get_pages_content_first_failure answer pre post bad
             (OtherException "ConnectionError") (mkState [] [])).
  - reflexivity.
  - intros u' e' _. unfold answer, get_except.
    destruct (str_eqb u' bad); [intros [= <-]; reflexivity | discriminate].
  - intros u' [<-|[]]. eexists. vm_compute. reflexivity.
  - exact Hbad.
Defined.

(** ** Assignments and updates of a dictionary *)

Section DictLaws.

Context {K V : Type}.
Variable eqb : K -> K -> bool.
Hypothesis eqb_eq : forall a b, eqb a b = true <-> a = b.

Lemma getitem_setitem (d : dict (K := K) (V := V)) k v k' :
  getitem eqb (setitem eqb d k v) k' =
  if eqb k k' then Some v else getitem eqb d k'.
Proof.
  induction d as [|[k0 v0] d IH]; simpl.
  - reflexivity.
  - destruct (eqb k0 k) eqn:E; simpl.
    + apply eqb_eq in E. subst k0. now destruct (eqb k k').
    + rewrite IH. destruct (eqb k0 k') eqn:E'; [|reflexivity].
      apply eqb_eq in E'. subst k0. apply (eqb_neq eqb eqb_eq) in E.
      replace (eqb k k') with false; [reflexivity|].
      symmetry. apply (eqb_neq eqb eqb_eq). congruence.
Qed.

Lemma setitem_overwrite (d : dict (K := K) (V := V)) k v0 v :
  setitem eqb (setitem eqb d k v0) k v = setitem eqb d k v.
Proof.
  induction d as [|[k0 w] d IH]; simpl.
  - now rewrite (eqb_refl_true eqb eqb_eq).
  - destruct (eqb k0 k) eqn:E; simpl; rewrite E; [reflexivity|]. now rewrite IH.
Qed.

Lemma setitem_key_in (d : dict (K := K) (V := V)) k v :
  In k (keys (setitem eqb d k v)).
Proof.
  induction d as [|[k0 w] d IH]; simpl; [now left|].
  destruct (eqb k0 k) eqn:E; simpl; [|tauto].
  apply eqb_eq in E. tauto.
Qed.

Lemma setitem_keys_incl (d : dict (K := K) (V := V)) k v k' :
  In k' (keys d) -> In k' (keys (setitem eqb d k v)).
Proof.
  induction d as [|[k0 w] d IH]; simpl; [tauto|].
  destruct (eqb k0 k); simpl; tauto.
Qed.

Lemma setitem_commute (d : dict (K := K) (V := V)) k v k1 v1 :
  k <> k1 -> In k (keys d) ->
  setitem eqb (setitem eqb d k1 v1) k v = setitem eqb (setitem eqb d k v) k1 v1.
Proof.
  intros Hne. induction d as [|[k0 w] d IH]; simpl; [tauto|]. intros Hin.
  destruct (eqb k0 k1) eqn:E1; destruct (eqb k0 k) eqn:E; simpl; rewrite ?E1, ?E;
    try reflexivity.
  - apply eqb_eq in E1, E. congruence.
  - f_equal. apply IH. destruct Hin as [Hin|Hin]; [|assumption].
    apply (eqb_neq eqb eqb_eq) in E. congruence.
Qed.

Lemma update_setitem_present (other : dict (K := K) (V := V)) :
  forall d k v,
    In k (keys d) -> ~ In k (keys other) ->
    setitem eqb (update eqb d other) k v = update eqb (setitem eqb d k v) other.
Proof.
  unfold update.
  induction other as [|[k1 v1] other IH]; intros d k v Hin Hnotin; [reflexivity|].
  simpl in *. rewrite IH; [|now apply setitem_keys_incl | tauto].
  f_equal. apply setitem_commute; [|assumption]. intros ->. tauto.
Qed.

Lemma update_setitem (other : dict (K := K) (V := V)) :
  NoDup (keys other) ->
  forall d k v,
    update eqb d (setitem eqb other k v) = setitem eqb (update eqb d other) k v.
Proof.
  induction other as [|[k0 v0] other IH]; intros Hnd d k v; [reflexivity|].
  simpl in Hnd. inversion Hnd as [|? ? Hnotin Hnd']; subst.
  simpl. destruct (eqb k0 k) eqn:E.
  - apply eqb_eq in E. subst k0. unfold update at 1 2. simpl.
    fold (update eqb (setitem eqb d k v) other).
    fold (update eqb (setitem eqb d k v0) other).
    rewrite update_setitem_present; [|apply setitem_key_in | assumption].
    now rewrite setitem_overwrite.
  - unfold update at 1 2. simpl.
    fold (update eqb (setitem eqb d k0 v0) (setitem eqb other k v)).
    fold (update eqb (setitem eqb d k0 v0) other).
    now apply IH.
Qed.

Lemma update_nodup (other : dict (K := K) (V := V)) :
  forall d, NoDup (keys d) -> NoDup (keys (update eqb d other)).
Proof.
  unfold update. induction other as [|[k v] other IH]; intros d Hnd; [assumption|].
  simpl. apply IH. now apply setitem_nodup.
Qed.

(** Updating with the dictionary that a list of assignments builds is
    updating with the assignments themselves. *)
Lemma update_built (assignments : list (K * V)) :
  forall d,
    update eqb d (update eqb [] assignments) = update eqb d assignments.
Proof.
  induction assignments as [|[k v] assignments IH] using rev_ind; intros d.
  - reflexivity.
  - unfold update at 2 3. rewrite !fold_left_app. cbn [fold_left fst snd].
    fold (update eqb [] assignments). fold (update eqb d assignments).
    rewrite update_setitem by (apply update_nodup; constructor).
    now rewrite IH.
Qed.

Lemma update_getitem (assignments : list (K * V)) :
  forall d k,
    getitem eqb (update eqb d assignments) k =
    match getitem eqb (rev assignments) k with
    | Some v => Some v
    | None => getitem eqb d k
    end.
Proof.
  induction assignments as [|[k0 v0] assignments IH] using rev_ind; intros d k.
  - reflexivity.
  - unfold update. rewrite fold_left_app. cbn [fold_left fst snd].
    fold (update eqb d assignments).
    rewrite getitem_setitem, rev_unit. simpl.
    destruct (eqb k0 k); [reflexivity | apply IH].
Qed.

Lemma update_In (assignments : list (K * V)) :
  forall d k v,
    In (k, v) (update eqb d assignments) -> In (k, v) d \/ In (k, v) assignments.
Proof.
  unfold update.
  induction assignments as [|[k0 v0] assignments IH]; intros d k v; [tauto|].
  simpl. intros H. apply IH in H as [H|H]; [|tauto].
  apply (setitem_In eqb eqb_eq) in H as [H|H]; [|tauto]. right. left. congruence.
Qed.

End DictLaws.

(** ** Extraction of the entries, without its effects *)

Section WordsInfoPure.

Variable World : Type.

Lemma get_words_info_group_pure (group : WordGroup) (words : words_dict)
  (st : State World) :
  _get_words_info_group World group words st =
  match group_entry group with
  | Ok p =>
      (Ok (setitem str_eqb words (fst p) (snd p)),
       mkState (world st) (log st ++ [entry_record p]))
  | Raise e => (Raise e, st)
  end.
Proof.
  unfold _get_words_info_group, group_entry, mbind, lift, logging, ret.
  destruct (text_of (first_a group)) as [word|e]; [|reflexivity]. cbn [bind].
  destruct (disambiguate (definition_p group)) as [r|e]; reflexivity.
Qed.

Lemma get_words_info_groups_pure (groups : list WordGroup) :
  forall (words : words_dict) (st : State World),
    _get_words_info_groups World groups words st =
    (match snd (entries_until groups) with
     | None => Ok (update str_eqb words (fst (entries_until groups)))
     | Some e => Raise e
     end,
     mkState (world st) (log st ++ map entry_record (fst (entries_until groups)))).
Proof.
  induction groups as [|g groups IH]; intros words st.
  - simpl. unfold ret. rewrite app_nil_r. now destruct st.
  - cbn [_get_words_info_groups entries_until]. unfold mbind at 1.
    rewrite get_words_info_group_pure.
    destruct (group_entry g) as [p|e].
    + rewrite IH. destruct (entries_until groups) as [ps failure].
      cbn [fst snd world log map]. rewrite <- app_assoc. reflexivity.
    + cbn [fst snd map]. rewrite app_nil_r. now destruct st.
Qed.

Lemma get_words_info_groups_app (a b : list WordGroup) :
  forall (words : words_dict) (st : State World),
    _get_words_info_groups World (a ++ b) words st =
    mbind World (_get_words_info_groups World a words)
          (fun words' => _get_words_info_groups World b words') st.
Proof.
  induction a as [|g a IH]; intros words st.
  - reflexivity.
  - cbn [app _get_words_info_groups]. unfold mbind.
    destruct (_get_words_info_group World g words st) as [[words1|e] st1];
      [|reflexivity].
    rewrite IH. reflexivity.
Qed.

Lemma get_words_info_pages_groups (htmls : list HTML) :
  forall (words : words_dict) (st : State World),
    _get_words_info_pages World htmls words st =
    _get_words_info_groups World (all_groups htmls) words st.
Proof.
  induction htmls as [|page htmls IH]; intros words st; [reflexivity|].
  cbn [_get_words_info_pages all_groups flat_map].
  rewrite get_words_info_groups_app. unfold mbind.
  destruct (_get_words_info_groups World (word_groups page) words st)
    as [[words1|e] st1]; [|reflexivity].
  apply IH.
Qed.

End WordsInfoPure.

Lemma entries_until_app (a b : list WordGroup) :
  snd (entries_until a) = None ->
  entries_until (a ++ b) =
  (fst (entries_until a) ++ fst (entries_until b), snd (entries_until b)).
Proof.
  induction a as [|g a IH]; simpl.
  - intros _. now destruct (entries_until b).
  - destruct (group_entry g) as [p|e]; [|discriminate].
    destruct (entries_until a) as [ps failure]. simpl in *. intros Hnone.
    rewrite (IH Hnone). reflexivity.
Qed.

Lemma entries_until_all (groups : list WordGroup) :
  snd (entries_until groups) = None ->
  Forall2 (fun group p => group_entry group = Ok p)
          groups (fst (entries_until groups)).
Proof.
  induction groups as [|g groups IH]; simpl; [constructor|].
  destruct (group_entry g) as [p|e] eqn:Hg; [|discriminate].
  destruct (entries_until groups) as [ps failure]. simpl in *. intros Hnone.
  constructor; [exact Hg | now apply IH].
Qed.

(** X16.  The extraction of the entries leaves the world of the transport
    as it is.  It logs one record for each entry extracted, in the order
    of the pages and of their word groups, up to the first group that
    fails; it raises the error of that group, and when no group fails it
    returns the dictionary that the entries, assigned in that order to an
    empty dictionary, make. *)
Theorem get_words_info_effects (World : Type) (htmls : list HTML)
  (st : State World) :
  let entries := fst (entries_until (all_groups htmls)) in
  _get_words_info World htmls st =
  (match snd (entries_until (all_groups htmls)) with
   | None => Ok (update str_eqb [] entries)
   | Some e => Raise e
   end,
   mkState (world st) (log st ++ map entry_record entries)).
Proof.
  cbv zeta. unfold _get_words_info.
  rewrite get_words_info_pages_groups. apply get_words_info_groups_pure.
Qed.

(** X17.  In a dictionary that [_get_words_info] returns no headword is
    listed twice, and a headword that several word groups share has the
    entry of the last of them. *)
Theorem get_words_info_last_wins (World : Type) (htmls : list HTML)
  (st st' : State World) (words : words_dict) :
  _get_words_info World htmls st = (Ok words, st') ->
  exists entries,
    Forall2 (fun group p => group_entry group = Ok p) (all_groups htmls) entries /\
    NoDup (keys words) /\
    (forall word, In word (keys words) <-> In word (map fst entries)) /\
    (forall word,
       getitem str_eqb words word = getitem str_eqb (rev entries) word).
Proof.
  unfold _get_words_info.
  rewrite get_words_info_pages_groups, get_words_info_groups_pure.
  destruct (snd (entries_until (all_groups htmls))) eqn:Hfail; [discriminate|].
  intros [= <- _]. exists (fst (entries_until (all_groups htmls))).
  set (entries := fst (entries_until (all_groups htmls))).
  assert (forall word,
            getitem str_eqb (update str_eqb [] entries) word =
            getitem str_eqb (rev entries) word) as Hget.
  { intros word. rewrite (update_getitem str_eqb str_eqb_eq). simpl.
    now destruct (getitem str_eqb (rev entries) word). }
  split; [now apply entries_until_all|]. split; [|split].
  - apply (update_nodup str_eqb str_eqb_eq). constructor.
  - intros word. split.
    + intros Hin. apply (getitem_key str_eqb str_eqb_eq) in Hin as [v Hv].
      apply (getitem_In str_eqb str_eqb_eq) in Hv.
      apply (update_In str_eqb str_eqb_eq) in Hv as [[]|Hv].
      change word with (fst (word, v)). now apply in_map.
    + intros Hin.
      assert (In word (keys (rev entries))) as Hrev
        by (unfold keys; rewrite map_rev; now apply in_rev in Hin).
      apply (getitem_key str_eqb str_eqb_eq) in Hrev as [v Hv].
      rewrite <- Hget in Hv. apply (getitem_In str_eqb str_eqb_eq) in Hv.
      change word with (fst (word, v)). unfold keys. now apply in_map.
  - exact Hget.
Qed.

Lemma get_words_info_last_wins_witness :
  let htmls :=
    [mkHTML None [entry_group "aso" "aso n. dog"];
     mkHTML None [entry_group "aso" "aso n. puppy"]] in
  exists words st',
    _get_words_info unit htmls (mkState tt []) = (Ok words, st') /\
    NoDup (keys words) /\
    getitem str_eqb words (lit "aso") =
    Some (mkWordEntry [lit "n"] (lit ". puppy")).
Proof.
  intros htmls.
  destruct (_get_words_info unit htmls (mkState tt [])) as [[words|e] st'] eqn:Hrun;
    [|vm_compute in Hrun; discriminate].
  exists words, st'. split; [reflexivity|].
  destruct (get_words_info_last_wins unit htmls (mkState tt []) st' words Hrun)
    as (entries & _ & Hnodup & _ & _).
  split; [exact Hnodup|].
  vm_compute in Hrun. injection Hrun as <- _. vm_compute. reflexivity.
Defined.

(** X18.  Extracting from two lists of pages one after the other and
    updating the first dictionary with the second gives what one
    extraction from all the pages gives: the same dictionary, the same
    log. *)
Theorem get_words_info_app (World : Type) (htmls1 htmls2 : list HTML)
  (st st1 st2 : State World) (words1 words2 : words_dict) :
  _get_words_info World htmls1 st = (Ok words1, st1) ->
  _get_words_info World htmls2 st1 = (Ok words2, st2) ->
  _get_words_info World (htmls1 ++ htmls2) st =
  (Ok (update str_eqb words1 words2), st2).
Proof.
  unfold _get_words_info.
  rewrite !get_words_info_pages_groups, !get_words_info_groups_pure.
  unfold all_groups. rewrite flat_map_app. fold (all_groups htmls1) (all_groups htmls2).
  destruct (snd (entries_until (all_groups htmls1))) eqn:H1; [discriminate|].
  destruct (snd (entries_until (all_groups htmls2))) eqn:H2; [discriminate|].
  intros [= <- <-] [= <- <-].
  rewrite (entries_until_app _ _ H1). cbn [fst snd world log]. rewrite H2.
  rewrite (update_built str_eqb str_eqb_eq).
  unfold update at 1. rewrite fold_left_app.
  rewrite map_app, app_assoc. reflexivity.
Qed.

Lemma get_words_info_app_witness :
  let page1 := mkHTML None [entry_group "aso" "aso n. dog"] in
  let page2 := mkHTML None [entry_group "aso" "aso n. puppy";
                            entry_group "pusa" "pusa n. cat"] in
  exists words1 st1 words2 st2,
    _get_words_info unit [page1] (mkState tt []) = (Ok words1, st1) /\
    _get_words_info unit [page2] st1 = (Ok words2, st2) /\
    _get_words_info unit ([page1] ++ [page2]) (mkState tt []) =
    (Ok (update str_eqb words1 words2), st2).
Proof.
  intros page1 page2.
  destruct (_get_words_info unit [page1] (mkState tt [])) as [[words1|e] st1] eqn:H1;
    [|vm_compute in H1; discriminate].
  destruct (_get_words_info unit [page2] st1) as [[words2|e] st2] eqn:H2.
  - exists words1, st1, words2, st2. split; [reflexivity|]. split; [exact H2|].
    exact (get_words_info_app unit [page1] [page2] _ _ _ _ _ H1 H2).
  - exfalso. vm_compute in H1. injection H1 as <- <-. vm_compute in H2. discriminate.
Defined.

(** ** The whole crawl *)

Section Crawl.

Variable World : Type.
Variable session_get : str -> World -> result Response * World.
Variable session_run : list str -> World -> result (list Response) * World.

(** What one letter adds, when its pass succeeds: the update of the
    dictionary with an extraction. *)
Lemma scrape_letter_Ok (async_scrape : bool) (max_urls : Z) (letter : str)
  (words words' : words_dict) (st st' : State World) :
  scrape_letter World session_get session_run async_scrape max_urls letter words st
  = (Ok words', st') ->
  exists htmls st1 found,
    _get_words_info World htmls st1 = (Ok found, st') /\
    words' = update str_eqb words found.
Proof.
  unfold scrape_letter. unfold mbind at 1, logging. unfold mbind at 1.
  destruct (_get_url_content World session_get _ _) as [[response|e] s1];
    [|discriminate].
  unfold mbind at 1, lift.
  destruct (scrape_last_page response) as [last_page|e]; [|discriminate].
  unfold mbind at 1.
  destruct ((if async_scrape
             then _get_pages_content_async World session_run
                    (_get_all_urls_by_letter letter last_page) max_urls
             else _get_pages_content World session_get
                    (_get_all_urls_by_letter letter last_page)) s1)
    as [[htmls|e] s2]; [|discriminate].
  unfold mbind at 1.
  destruct (_get_words_info World htmls s2) as [[found|e] s3] eqn:Hinfo;
    [|discriminate].
  unfold ret. intros [= <- <-]. now exists htmls, s2, found.
Qed.

Lemma scrape_letters_invariant (P : words_dict -> Prop) (async_scrape : bool)
  (max_urls : Z) :
  (forall words htmls st1 found st',
     P words -> _get_words_info World htmls st1 = (Ok found, st') ->
     P (update str_eqb words found)) ->
  forall ls words words' st st',
    P words ->
    scrape_letters World session_get session_run ls async_scrape max_urls words st
    = (Ok words', st') ->
    P words'.
Proof.
  intros Hstep. induction ls as [|letter ls IH]; intros words words' st st' HP.
  - simpl. unfold ret. now intros [= <- _].
  - cbn [scrape_letters]. unfold mbind at 1.
    destruct (scrape_letter World session_get session_run async_scrape max_urls
                letter words st) as [[words1|e] st1] eqn:Hletter; [|discriminate].
    apply scrape_letter_Ok in Hletter as (htmls & s1 & found & Hinfo & ->).
    apply IH. exact (Hstep _ _ _ _ _ HP Hinfo).
Qed.

End Crawl.

Lemma extracted_entry (word : str) (entry : WordEntry) :
  extracted (fun _ => True) word entry ->
  entry_parts_of_speech entry <> [] /\
  exists d tag,
    disambiguate (Some d) =
    Ok (entry_parts_of_speech entry, entry_definition entry) /\
    last_item (entry_parts_of_speech entry) = Ok tag /\
    find (entry_definition entry) tag = -1.
Proof.
  intros (group & a & d & _ & _ & _ & _ & Hdis).
  pose proof Hdis as Hdis'.
  apply disambiguate_Ok in Hdis'
    as (leading & nearest & fragments & fragment & Htags & _ & _ & _ & Hfind & Hdef).
  split; [rewrite Htags; now destruct leading|].
  exists d, nearest. split; [exact Hdis|]. split.
  - rewrite Htags. apply last_item_snoc.
  - rewrite Hdef. apply find_minus_one. apply find_minus_one in Hfind.
    destruct (strip_infix fragment) as (x & y & Hinfix).
    exact (find_index_None_infix _ _ _ _ _ Hfind Hinfix).
Qed.

(** X19.  In the dictionary that a crawl returns, in either mode and
    with any transport, no headword is listed twice, and every entry is
    the disambiguation of some definition block: its list of tags is not
    empty and its definition holds no occurrence of its last tag. *)
Theorem scrape_entries (World : Type)
  (session_get : str -> World -> result Response * World)
  (session_run : list str -> World -> result (list Response) * World)
  (async_scrape : bool) (max_urls : Z) (st st' : State World)
  (words : words_dict) :
  scrape World session_get session_run async_scrape max_urls st = (Ok words, st') ->
  NoDup (keys words) /\
  forall word entry, In (word, entry) words ->
    entry_parts_of_speech entry <> [] /\
    exists d tag,
      disambiguate (Some d) =
      Ok (entry_parts_of_speech entry, entry_definition entry) /\
      last_item (entry_parts_of_speech entry) = Ok tag /\
      find (entry_definition entry) tag = -1.
Proof.
  unfold scrape. intros Hrun.
  set (P := fun words : words_dict =>
              NoDup (keys words) /\
              forall w en, In (w, en) words -> extracted (fun _ => True) w en).
  assert (forall ws htmls st1 found st2,
            P ws -> _get_words_info World htmls st1 = (Ok found, st2) ->
            P (update str_eqb ws found)) as Hstep.
  { intros ws htmls st1 found st2 [Hnd Hin] Hinfo. split.
    - now apply (update_nodup str_eqb str_eqb_eq).
    - intros w en Hw.
      apply (update_In str_eqb str_eqb_eq) in Hw as [Hw|Hw]; [now apply Hin|].
      assert (forall w' en', In (w', en') (@nil (str * WordEntry)) ->
                             extracted (fun _ => True) w' en') as Hnil
        by (intros w' en' []).
      destruct (get_words_info_pages_Ok World (fun _ => True) htmls
                  (fun _ _ _ _ => I) _ _ _ _ Hnil Hinfo) as [Hall _].
      now apply Hall. }
  assert (P []) as Hempty by (split; [constructor | intros w en []]).
  destruct (scrape_letters_invariant World session_get session_run P
              async_scrape max_urls Hstep letters [] words st st' Hempty Hrun)
    as [Hnodup Hentries].
  split; [exact Hnodup|].
  intros word entry Hin. apply (extracted_entry word). now apply Hentries.
Qed.

Section CrawlStateless.

Variable fetch : str -> result Response.
Variable session_run : list str -> unit -> result (list Response) * unit.

Lemma scrape_letter_first_page (async_scrape : bool) (max_urls : Z)
  (letter : str) (e : exn) (words : words_dict) (st : State unit) :
  fetch (url ++ lit "/list/" ++ letter) = Raise e ->
  scrape_letter unit (stateless fetch) session_run async_scrape max_urls
    letter words st
  = (Raise e, mkState tt (log st ++ [InfoCurrentLetter letter])).
Proof.
  intros Hfetch. unfold scrape_letter. unfold mbind at 1, logging.
  unfold mbind at 1. rewrite get_url_content_stateless. cbn [world log].
  now rewrite Hfetch.
Qed.

Lemma scrape_letters_first_page (async_scrape : bool) (max_urls : Z)
  (letter : str) (e : exn) (ls : list str) :
  In letter ls ->
  fetch (url ++ lit "/list/" ++ letter) = Raise e ->
  forall (words : words_dict) (st : State unit),
  exists e' st',
    scrape_letters unit (stateless fetch) session_run ls async_scrape max_urls
      words st
    = (Raise e', st').
Proof.
  intros Hin Hfetch. induction ls as [|l ls IH]; intros words st; [destruct Hin|].
  cbn [scrape_letters]. unfold mbind at 1.
  destruct (scrape_letter unit (stateless fetch) session_run async_scrape max_urls
              l words st) as [[words1|e1] st1] eqn:Hletter.
  - destruct Hin as [->|Hin].
    + rewrite (scrape_letter_first_page _ _ _ _ _ _ Hfetch) in Hletter. discriminate.
    + now apply IH.
  - now exists e1, st1.
Qed.

End CrawlStateless.

(** X20.  A letter whose first listing page cannot be fetched aborts the
    crawl: in either mode the crawl raises and returns no dictionary,
    whatever was extracted for the letters before. *)
Theorem scrape_first_page_failure (fetch : str -> result Response)
  (session_run : list str -> unit -> result (list Response) * unit)
  (async_scrape : bool) (max_urls : Z) (letter : str) (e : exn)
  (st : State unit) :
  In letter letters ->
  fetch (url ++ lit "/list/" ++ letter) = Raise e ->
  exists e' st',
    scrape unit (stateless fetch) session_run async_scrape max_urls st
    = (Raise e', st').
Proof.
  intros Hin Hfetch. unfold scrape.
  exact (scrape_letters_first_page fetch session_run async_scrape max_urls
           letter e letters Hin Hfetch [] st).
Qed.

Lemma scrape_first_page_failure_witness :
  let fetch := fun u : str =>
    if str_eqb u (lit "https://tagalog.pinoydictionary.com/list/b")
    then Raise (OtherException "ConnectionError")
    else Ok (mkResponse u empty_page) in
  In (lit "b") letters /\
  fetch (url ++ lit "/list/" ++ lit "b") = Raise (OtherException "ConnectionError") /\
  exists e' st',
    scrape unit (stateless fetch) run_each true 10 (mkState tt []) = (Raise e', st').
Proof.
  intros fetch.
  assert (In (lit "b") letters) as Hin by (vm_compute; tauto).
  assert (fetch (url ++ lit "/list/" ++ lit "b")
          = Raise (OtherException "ConnectionError")) as Hfetch
    by (vm_compute; reflexivity).
  split; [exact Hin|]. split; [exact Hfetch|].
  exact (scrape_first_page_failure fetch run_each true 10 (lit "b") _
           (mkState tt []) Hin Hfetch).
Defined.

Lemma scrape_entries_witness :
  let page := mkHTML None [entry_group "aso" "aso n. dog"] in
  let fetch := fun u : str => Ok (mkResponse u page) in
  exists words st',
    scrape unit (stateless fetch) run_each false 10 (mkState tt []) = (Ok words, st') /\
    NoDup (keys words).
Proof.
  intros page fetch.
  destruct (scrape unit (stateless fetch) run_each false 10 (mkState tt []))
    as [[words|e] st'] eqn:Hrun; [|vm_compute in Hrun; discriminate].
  exists words, st'. split; [reflexivity|].
  exact (proj1 (scrape_entries unit (stateless fetch) run_each false 10
                  (mkState tt []) st' words Hrun)).
Defined.

(** ** Distinct addresses *)

Lemma str_of_int_inj (a b : Z) : str_of_int a = str_of_int b -> a = b.
Proof.
  intros H. destruct (py_int_str_of_int a) as [Ha _].
  destruct (py_int_str_of_int b) as [Hb _]. rewrite H in Ha. congruence.
Qed.

Lemma str_of_int_nonempty (a : Z) : str_of_int a <> [].
Proof.
  intros H. destruct (py_int_str_of_int a) as [Ha _]. rewrite H in Ha.
  vm_compute in Ha. discriminate.
Qed.

Lemma page_url_inj (letter : str) (a b : Z) :
  page_url letter a = page_url letter b -> a = b.
Proof.
  unfold page_url. intros H.
  do 4 apply app_inv_head in H. apply app_inv_tail in H.
  destruct (a =? 1) eqn:Ea; destruct (b =? 1) eqn:Eb.
  - apply Z.eqb_eq in Ea, Eb. congruence.
  - symmetry in H. now apply str_of_int_nonempty in H.
  - now apply str_of_int_nonempty in H.
  - now apply str_of_int_inj.
Qed.

(** X21.  No address is enumerated twice for a letter, and the
    addresses of two different bounds agree as far as the shorter list
    goes. *)
Theorem get_all_urls_by_letter_nodup (letter : str) (n m : Z) :
  NoDup (_get_all_urls_by_letter letter n) /\
  (n <= m ->
   firstn (length (_get_all_urls_by_letter letter n))
          (_get_all_urls_by_letter letter m)
   = _get_all_urls_by_letter letter n).
Proof.
  split.
  - unfold _get_all_urls_by_letter, range2.
    apply Injective_map_NoDup; [intros a b; apply page_url_inj|].
    apply Injective_map_NoDup; [|apply seq_NoDup].
    intros a b H. lia.
  - intros Hnm. unfold _get_all_urls_by_letter.
    rewrite length_map, range2_length, firstn_map. f_equal.
    unfold range2, range_length. cbn [Z.ltb Z.compare]. rewrite !Z.div_1_r.
    rewrite firstn_map. f_equal.
    replace (Z.to_nat (m - 1 + 1 - 1))
      with (Z.to_nat (n - 1) + (Z.to_nat (m - 1 + 1 - 1) - Z.to_nat (n - 1)))%nat
      by lia.
    rewrite seq_app, firstn_app, length_seq, Nat.sub_diag, firstn_O, app_nil_r.
    rewrite firstn_all2 by (rewrite length_seq; lia).
    f_equal. lia.
Qed.
